(** * Defect prediction from change history: a model of
      [scripts/defect_prediction.py]

    The script counts, per file, the commits that touched it
    ([extract_file_change_history]), scales the counts so that they add
    up to one ([calculate_bug_scores]) and prints the files with the
    highest scores ([generate_report]).

    Conventions of the model.
    - A Python [dict] keeps its insertion order, and [generate_report]
      depends on it, so a dict is an association list in insertion order
      ([Dict.t]); its reading as a finite map is [Dict.to_map].
    - Python's [int] is [Z].  The scores are Python floats.  In
      [calculate_bug_scores] the model keeps the exact rational value of
      every sum and quotient ([Qc]).  On integer counts the sum is exact in
      Python too, and [/] rounds the exact quotient once; what is stated of
      the scores of integer counts is stated so that this one rounding
      does not affect it, or with the error allowed for written out
      ([within_rel]).  On a map of floats [sum] and [/] both round:
      [calculate_bug_scores_with] is the same function with the two
      operations as parameters, the statements about it assume a bound on
      their error, and [round_binary64] gives the binary64 operations
      themselves, as functions on the rationals.
    - The repository handle of GitPython is represented by the sequence of
      commits that [repo.iter_commits('--all')] yields, each commit by
      the keys of [commit.stats.files].
    - What the other functions read from outside is an argument: the
      directories and file names that [os.walk] yields, the path functions
      of [os.path], the numbers [random.random()] returns, what
      [subprocess.run] does, whether the local path exists.  Cloning and
      opening the repository are taken to succeed.  What a function does to
      the outside (printing, cloning, starting a process) is the list of
      [event]s it returns. *)

From Stdlib Require Import QArith Qcanon.
From stdpp Require Import base numbers strings list gmap sorting.

Local Open Scope Z_scope.

(** ** Insertion-ordered dictionaries *)

Module Dict.
Section dict.
Context {V : Type}.

Definition t : Type := list (string * V).

Definition keys (d : t) : list string := d.*1.
Definition values (d : t) : list V := d.*2.
Definition items (d : t) : list (string * V) := d.

(** [d.get(k)] *)
Fixpoint get (d : t) (k : string) : option V :=
  match d with
  | [] => None
  | (k', v) :: d' => if decide (k' = k) then Some v else get d' k
  end.

(** [d[k] = v]: an existing key keeps its position, a new key goes last. *)
Fixpoint setitem (d : t) (k : string) (v : V) : t :=
  match d with
  | [] => [(k, v)]
  | (k', v') :: d' =>
      if decide (k' = k) then (k', v) :: d' else (k', v') :: setitem d' k v
  end.

(** A dict holds every key once. *)
Definition wf (d : t) : Prop := NoDup (keys d).

Definition to_map (d : t) : gmap string V := list_to_map d.
End dict.
Global Arguments t : clear implicits.
End Dict.

Abbreviation dict := Dict.t.

(** ** Change aggregation *)

(** What the loop of [extract_file_change_history] reads of a commit:
    [commit.stats.files.keys()]. *)
Record commit := Commit { stats_files_keys : list string }.

(** [defaultdict(int).__getitem__]: a missing key is first stored with
    the value [int() = 0]. *)
Definition defaultdict_getitem (d : dict Z) (k : string) : Z * dict Z :=
  match Dict.get d k with
  | Some v => (v, d)
  | None => (0, Dict.setitem d k 0)
  end.

(** [file_change_count[file] += 1] *)
Definition increment (file_change_count : dict Z) (file : string) : dict Z :=
  let '(v, d) := defaultdict_getitem file_change_count file in
  Dict.setitem d file (v + 1).

(** The body of the outer loop: one commit. *)
Definition process_commit (file_change_count : dict Z) (c : commit) : dict Z :=
  fold_left increment (stats_files_keys c) file_change_count.

Definition extract_file_change_history (commits : list commit) : dict Z :=
  fold_left process_commit commits [].

(** The count of a file in a record, [0] for a file that has no entry. *)
Definition count_of (d : dict Z) (file : string) : Z :=
  default 0 (Dict.get d file).

(** No stored count is negative. *)
Definition counts_nonneg (d : dict Z) : Prop :=
  ∀ file v, Dict.get d file = Some v → 0 ≤ v.

(** The states the accumulator goes through during one pass. *)
Inductive pass_state : dict Z → Prop :=
  | pass_start : pass_state []
  | pass_incr d file : pass_state d → pass_state (increment d file).

(** A [FileChangeRecord] is what an aggregation pass returns. *)
Definition FileChangeRecord (d : dict Z) : Prop :=
  ∃ commits, d = extract_file_change_history commits.

(** ** Objects, exceptions and the calls that mutate

    [calculate_bug_scores] receives a reference to a dict and returns a
    reference to another one.  The store maps references to dicts of
    numbers; a computation threads the store and may raise. *)

Inductive exn := ZeroDivisionError | InvalidReference.

Definition loc := nat.
Abbreviation heap := (list (dict Qc)).

Definition M (A : Type) : Type := heap → (exn + A) * heap.

Definition ret {A} (a : A) : M A := λ h, (inr a, h).
Definition raise {A} (e : exn) : M A := λ h, (inl e, h).
Definition bind {A B} (m : M A) (k : A → M B) : M B :=
  λ h, match m h with
       | (inr a, h') => k a h'
       | (inl e, h') => (inl e, h')
       end.

Notation "x <- m ;; k" := (bind m (λ x, k))
  (at level 100, m at next level, right associativity).
Notation "m ;;; k" := (bind m (λ _, k))
  (at level 100, right associativity).

(** [{}] *)
Definition new_dict : M loc := λ h, (inr (length h), h ++ [[]]).

Definition deref (l : loc) : M (dict Qc) :=
  λ h, match h !! l with
       | Some d => (inr d, h)
       | None => (inl InvalidReference, h)
       end.

(** [d.values()], [d.items()] *)
Definition dict_values (l : loc) : M (list Qc) :=
  d <- deref l ;; ret (Dict.values d).
Definition dict_items (l : loc) : M (list (string * Qc)) :=
  d <- deref l ;; ret (Dict.items d).

(** [d[k] = v] *)
Definition dict_setitem (l : loc) (k : string) (v : Qc) : M unit :=
  λ h, match h !! l with
       | Some d => (inr (), <[l := Dict.setitem d k v]> h)
       | None => (inl InvalidReference, h)
       end.

(** [for x in xs: body] *)
Fixpoint for_each {A} (xs : list A) (body : A → M unit) : M unit :=
  match xs with
  | [] => ret ()
  | x :: xs' => body x ;;; for_each xs' body
  end.

(** [sum(xs)]: starts from [0] and adds from the left. *)
Definition sum (xs : list Qc) : Qc := fold_left Qcplus xs 0%Qc.

(** [a / b] *)
Definition truediv (a b : Qc) : M Qc :=
  if decide (b = 0%Qc) then raise ZeroDivisionError else ret (a / b)%Qc.

(** ** Score normalisation *)

Definition calculate_bug_scores (file_change_count : loc) : M loc :=
  vals <- dict_values file_change_count ;;
  let total_changes := sum vals in
  bug_scores <- new_dict ;;
  if decide (total_changes = 0%Qc) then ret bug_scores
  else
    its <- dict_items file_change_count ;;
    for_each its (λ '(file, changes),
      q <- truediv changes total_changes ;;
      dict_setitem bug_scores file q) ;;;
    ret bug_scores.

(** A call with one dict as its argument, in a store that holds nothing
    else; the result is the dict behind the returned reference. *)
Definition call (f : loc → M loc) (arg : dict Qc) : exn + dict Qc :=
  match f 0%nat [arg] with
  | (inr out, h) =>
      match h !! out with
      | Some d => inr d
      | None => inl InvalidReference
      end
  | (inl e, _) => inl e
  end.

(** The counts of a record read as numbers, as [main] passes them on. *)
Definition as_numbers (d : dict Z) : dict Qc := prod_map id Qc_of_Z <$> d.

(** [1e-9] *)
Definition tolerance : Qc := Q2Qc (1 # 1000000000).

(** [2^-53], the largest relative error of rounding a real number to the
    nearest binary64 float (outside the subnormal range). *)
Definition unit_roundoff : Qc := Q2Qc (1 # 9007199254740992).

(** [r] is [s] up to the relative error [u], for [s] not negative. *)
Definition within_rel (u : Qc) (r s : Qc) : Prop :=
  (s * (1 - u) ≤ r ∧ r ≤ s * (1 + u))%Qc.

(** The value [calculate_bug_scores] computes, in closed form. *)
Definition scores_of (raw : dict Qc) : dict Qc :=
  if decide (sum (Dict.values raw) = 0%Qc) then []
  else prod_map id (λ v, v / sum (Dict.values raw))%Qc <$> raw.

(** The dict the loop of [calculate_bug_scores] builds from [acc] when
    the total is [t]. *)
Definition loop_result (t : Qc) (its : list (string * Qc)) (acc : dict Qc)
    : dict Qc :=
  fold_left (λ a '(file, changes), Dict.setitem a file (changes / t)%Qc)
            its acc.

(** ** The report *)

(** What [generate_report] prints: the heading, then one line per file
    with its position, its path and its score. *)
Inductive output_line :=
  | Heading (top_n : Z)
  | Item (i : nat) (file : string) (score : Qc).

Definition score_ge (a b : string * Qc) : Prop := (b.2 ≤ a.2)%Qc.

Fixpoint insert_by_score (x : string * Qc) (l : list (string * Qc))
    : list (string * Qc) :=
  match l with
  | [] => [x]
  | y :: l' =>
      if decide (x.2 < y.2)%Qc then y :: insert_by_score x l' else x :: l
  end.

(** [sorted(its, key=lambda x: x[1], reverse=True)].  Python's sort is
    stable, also with [reverse=True]: items with equal keys keep the order
    they come in.  There is one such list ([stable_sorted_unique] below),
    built here by insertion from the right. *)
Definition sorted_by_score_reverse (its : list (string * Qc))
    : list (string * Qc) :=
  foldr insert_by_score [] its.

(** [l[:n]] *)
Definition slice_to {A} (n : Z) (l : list A) : list A :=
  if decide (0 ≤ n) then take (Z.to_nat n) l
  else take (length l - Z.to_nat (- n)) l.

(** [enumerate(l, 1)] *)
Definition enumerate1 {A} (l : list A) : list (nat * A) :=
  imap (λ i x, (S i, x)) l.

Definition generate_report (bug_scores : dict Qc) (top_n : Z)
    : list output_line :=
  let sorted_files := sorted_by_score_reverse (Dict.items bug_scores) in
  Heading top_n ::
  ((λ '(i, (file, score)), Item i file score) <$>
     enumerate1 (slice_to top_n sorted_files)).

(** The default [top_n=10]. *)
Definition generate_report_default (bug_scores : dict Qc) : list output_line :=
  generate_report bug_scores 10.

(** The files and scores a report lists, in the order printed. *)
Definition entries (out : list output_line) : list (string * Qc) :=
  omap (λ ln, match ln with Item _ f s => Some (f, s) | Heading _ => None end)
       out.

(** The order the specification asks of a report: higher score first,
    and among equal scores the smaller path first. *)
Definition score_then_path (a b : string * Qc) : Prop :=
  (b.2 < a.2)%Qc ∨ (a.2 = b.2 ∧ String.ltb a.1 b.1 = true).

(** The entries with every score as a fraction in lowest terms. *)
Definition fractions (es : list (string * Qc)) : list (string * Q) :=
  prod_map id Qcanon.this <$> es.

(** The first steps of [main]: count, normalise, report. *)
Definition approach1 (commits : list commit) : exn + list output_line :=
  match call calculate_bug_scores
             (as_numbers (extract_file_change_history commits)) with
  | inr bug_scores => inr (generate_report_default bug_scores)
  | inl e => inl e
  end.

(** ** Files of the working tree *)

(** [s.endswith(suffix)] *)
Definition endswith (s suffix : string) : bool :=
  bool_decide (String.list_ascii_of_string suffix `suffix_of`
               String.list_ascii_of_string s).

(** [s.endswith((suffix1, ..., suffixn))] *)
Definition endswith_any (s : string) (suffixes : list string) : bool :=
  existsb (endswith s) suffixes.

(** What [os.walk] yields: for every directory, its path and the names of
    its files. *)
Abbreviation walk := (list (string * list string)).

(** ** The simulated REPD model *)

Definition code_suffixes : list string :=
  [".py"; ".c"; ".cpp"; ".h"; ".java"; ".js"; ".go"]%string.

(** The first loop of [repd_defect_prediction].  [relpath root file] is
    [os.path.relpath(os.path.join(root, file), repo.working_tree_dir)]. *)
Definition gather_repo_files (relpath : string → string → string)
    (tree : walk) : list string :=
  fold_left (λ repo_files '(root, files),
    fold_left (λ repo_files file,
      if endswith_any file code_suffixes
      then repo_files ++ [relpath root file]
      else repo_files) files repo_files) tree [].

(** [random i] is what the call number [i] of [random.random()] returns. *)
Definition repd_defect_prediction (relpath : string → string → string)
    (tree : walk) (random : nat → Qc) : M loc :=
  repd_scores <- new_dict ;;
  let repo_files := gather_repo_files relpath tree in
  for_each (imap (λ i file, (file, random i)) repo_files)
           (λ '(file, r), dict_setitem repd_scores file r) ;;;
  vals <- dict_values repd_scores ;;
  let total_score := sum vals in
  if decide (0 < total_score)%Qc then
    its <- dict_items repd_scores ;;
    normalized <- new_dict ;;
    for_each its (λ '(file, score),
      q <- truediv score total_score ;;
      dict_setitem normalized file q) ;;;
    ret normalized
  else ret repd_scores.

(** The dict that assigning the pairs one after the other makes of
    [acc]. *)
Definition dict_of_pairs (pairs : list (string * Qc)) (acc : dict Qc)
    : dict Qc :=
  fold_left (λ a '(k, v), Dict.setitem a k v) pairs acc.

(** The files of the tree that [repd_defect_prediction] scores, in closed
    form. *)
Definition code_files (relpath : string → string → string) (tree : walk)
    : list string :=
  tree ≫= λ '(root, files),
    relpath root <$> filter (λ file, endswith_any file code_suffixes = true)
                            files.

(** A computation run in an empty store; the result is the dict behind
    the returned reference. *)
Definition run (m : M loc) : exn + dict Qc :=
  match m [] with
  | (inr out, h) =>
      match h !! out with
      | Some d => inr d
      | None => inl InvalidReference
      end
  | (inl e, _) => inl e
  end.

(** ** Static analysis *)

(** What [subprocess.run] does: it raises, or it returns a result. *)
Inductive outcome :=
  | Raised (e : string)
  | Completed (returncode : Z) (stdout stderr : string).

(** What the script does to the outside: lines printed (those of
    [generate_report] kept as they are), repositories cloned, processes
    started. *)
Inductive event :=
  | Print (s : string)
  | PrintLine (l : output_line)
  | CloneFrom (repo_url local_path : string)
  | SubprocessRun (argv : list string).

Definition newline : string := String (Ascii.ascii_of_nat 10) "".

(** One [try] block of [run_static_analysis]; the three blocks differ in
    the name printed and in the command only. *)
Definition run_tool (name command file_path : string) (result : outcome)
    : list event :=
  [Print ("Running " +:+ name +:+ " on " +:+ file_path +:+ "...");
   SubprocessRun [command; file_path]] ++
  match result with
  | Raised e =>
      [Print ("Error running " +:+ name +:+ " on " +:+ file_path +:+ ": "
              +:+ e)]
  | Completed returncode stdout stderr =>
      if decide (returncode ≠ 0)
      then [Print (name +:+ " failed for " +:+ file_path +:+ ": " +:+ stderr)]
      else if decide (stdout ≠ ""%string) then [Print stdout] else []
  end.

(** The tool a file name is given to, if any: the tests of the [if] chain
    in their order. *)
Definition tool_for (file : string) : option (string * string) :=
  if endswith file ".java" && negb (endswith file "module-info.java")
  then Some ("SpotBugs", "spotbugs")%string
  else if endswith_any file [".cpp"; ".h"]%string
  then Some ("cppcheck", "cppcheck")%string
  else if endswith file ".c" then Some ("cppcheck", "cppcheck")%string
  else None.

(** The body of the inner loop.  [n] counts the processes started so far;
    [subprocess_run n argv] is what the call number [n] does. *)
Definition analyse_file (join : string → string → string)
    (subprocess_run : nat → list string → outcome)
    (root file : string) (n : nat) : list event * nat :=
  let file_path := join root file in
  match tool_for file with
  | Some (name, command) =>
      (run_tool name command file_path
                (subprocess_run n [command; file_path]), S n)
  | None => ([], n)
  end.

Definition run_static_analysis (join : string → string → string)
    (tree : walk) (subprocess_run : nat → list string → outcome)
    : list event :=
  Print (newline +:+
         "=== Running Static Code Analysis to Identify Bugs/Defects ===") ::
  (fold_left (λ '(out, n) '(root, files),
     fold_left (λ '(out, n) file,
       let '(evs, n') := analyse_file join subprocess_run root file n in
       (out ++ evs, n')) files (out, n)) tree ([], 0%nat)).1.

(** ** The main function *)

Definition clone_repository (path_exists : string → bool)
    (repo_url local_path : string) : list event :=
  if negb (path_exists local_path)
  then [Print ("Cloning repository from " +:+ repo_url +:+ "...");
        CloneFrom repo_url local_path]
  else [Print ("Repository already exists at " +:+ local_path +:+ ".")].

(** [main], with what it reads from outside as arguments: whether a path
    exists, the commits of the repository, its working tree, the random
    numbers and the behaviour of the tools.  The result is what happened, and
    the exception that ended the run, if one did. *)
Definition main (path_exists : string → bool) (commits : list commit)
    (relpath join : string → string → string) (tree : walk)
    (random : nat → Qc) (subprocess_run : nat → list string → outcome)
    : list event * option exn :=
  let repo_url := "https://github.com/eclipse-openj9/openj9"%string in
  let local_path := "./openj9_repo"%string in
  let out1 :=
    clone_repository path_exists repo_url local_path ++
    [Print (newline +:+
       "=== Running BugCache/FixCache defect prediction (Approach 1) ===")] in
  match call calculate_bug_scores
             (as_numbers (extract_file_change_history commits)) with
  | inl e => (out1, Some e)
  | inr bug_scores =>
      let out2 :=
        out1 ++ (PrintLine <$> generate_report_default bug_scores) ++
        [Print (newline +:+
           "=== Running REPD defect prediction (Approach 2) ===");
         Print "Running REPD defect prediction model..."] in
      match run (repd_defect_prediction relpath tree random) with
      | inl e => (out2, Some e)
      | inr repd_scores =>
          let out3 :=
            out2 ++
            (if decide (repd_scores ≠ [])
             then PrintLine <$> generate_report_default repd_scores
             else [Print "REPD model not implemented yet."]) in
          (out3 ++ run_static_analysis join tree subprocess_run, None)
      end
  end.

(** ** What a run did *)

(** The commands of the processes started, the clones made and the report
    lines printed, in the order in which they happened. *)
Definition processes_started (evs : list event) : list (list string) :=
  omap (λ e, match e with SubprocessRun argv => Some argv | _ => None end) evs.

Definition clones (evs : list event) : list (string * string) :=
  omap (λ e, match e with CloneFrom u p => Some (u, p) | _ => None end) evs.

Definition report_lines (evs : list event) : list output_line :=
  omap (λ e, match e with PrintLine l => Some l | _ => None end) evs.

(** Events that are a printed string or a process. *)
Definition tool_event (e : event) : Prop :=
  match e with Print _ | SubprocessRun _ => True | _ => False end.

(** The commands for the files of a tree that have a tool, in the order
    of the walk. *)
Definition commands_for (join : string → string → string) (tree : walk)
    : list (list string) :=
  tree ≫= λ '(root, files),
    omap (λ file, (λ t : string * string, [t.2; join root file])
                    <$> tool_for file) files.

(** ** Floating-point operations as parameters

    On a map of floats Python rounds where [sum] and [truediv] above do
    not: [sum(...)] rounds as it adds (or compensates, from Python 3.12 on)
    and [/] rounds the quotient.  [calculate_bug_scores_with] is the
    function with these two operations left open: [fsum] is [sum(...)] on
    floats and [fdiv a b] the result of [a / b] for a non-zero [b]. *)

Definition truediv_with (fdiv : Qc → Qc → Qc) (a b : Qc) : M Qc :=
  if decide (b = 0%Qc) then raise ZeroDivisionError else ret (fdiv a b).

Definition calculate_bug_scores_with (fsum : list Qc → Qc)
    (fdiv : Qc → Qc → Qc) (file_change_count : loc) : M loc :=
  vals <- dict_values file_change_count ;;
  let total_changes := fsum vals in
  bug_scores <- new_dict ;;
  if decide (total_changes = 0%Qc) then ret bug_scores
  else
    its <- dict_items file_change_count ;;
    for_each its (λ '(file, changes),
      q <- truediv_with fdiv changes total_changes ;;
      dict_setitem bug_scores file q) ;;;
    ret bug_scores.

(** What [calculate_bug_scores_with] computes, in closed form. *)
Definition scores_with (fsum : list Qc → Qc) (fdiv : Qc → Qc → Qc)
    (raw : dict Qc) : dict Qc :=
  if decide (fsum (Dict.values raw) = 0%Qc) then []
  else prod_map id (λ v, fdiv v (fsum (Dict.values raw))) <$> raw.

(** [r] is [s] up to the relative error [u] and the absolute error [η],
    for [s] not negative: the accuracy of a rounded result, [η] being the
    error of a result that underflows. *)
Definition close_to (u η : Qc) (r s : Qc) : Prop :=
  (s * (1 - u) - η ≤ r ∧ r ≤ s * (1 + u) + η)%Qc.

(** The margin left to the inputs of a normalisation for the result to
    stay within [tolerance]: one hundredth of it. *)
Definition margin : Qc := Q2Qc (1 # 100000000000).

(** *** Binary64

    The floats of Python, as the rationals they are.  [round_binary64 q]
    is the float nearest to [q], ties to even, with 53 significant bits and
    exponents from [-1022] on (so subnormal numbers are there); overflow to
    infinity is not. *)

Definition pow2 (k : Z) : Qc :=
  if decide (0 ≤ k) then Qc_of_Z (2 ^ k) else (/ Qc_of_Z (2 ^ (- k)))%Qc.

(** The integer nearest to a rational that is not negative, ties to
    even. *)
Definition round_half_even (q : Qc) : Z :=
  let n := Qnum q in
  let d := Z.pos (Qden q) in
  let f := n / d in
  match (2 * (n mod d)) ?= d with
  | Lt => f
  | Gt => f + 1
  | Eq => if Z.even f then f else f + 1
  end.

Definition round_binary64 (q : Qc) : Qc :=
  if decide (q = 0%Qc) then 0%Qc
  else
    let a := if decide (0 < q)%Qc then q else (- q)%Qc in
    let e0 := Z.log2 (Qnum a) - Z.log2 (Z.pos (Qden a)) in
    let e := if decide (a < pow2 e0)%Qc then e0 - 1 else e0 in
    let e' := Z.max e (-1022) in
    let r := (Qc_of_Z (round_half_even (a * pow2 (52 - e')))
              * pow2 (e' - 52))%Qc in
    if decide (0 < q)%Qc then r else (- r)%Qc.

(** [sum(xs)] on floats, adding from the left and rounding every sum (the
    loop of Python before 3.12), and [a / b] on floats. *)
Definition binary64_sum (xs : list Qc) : Qc :=
  fold_left (λ s x, round_binary64 (s + x)%Qc) xs 0%Qc.

Definition binary64_div (a b : Qc) : Qc := round_binary64 (a / b)%Qc.

(** The exponent at which [round_binary64] rounds a positive number. *)
Definition exponent_of (q : Qc) : Z :=
  let e0 := Z.log2 (Qnum q) - Z.log2 (Z.pos (Qden q)) in
  Z.max (if decide (q < pow2 e0)%Qc then e0 - 1 else e0) (-1022).

(** A float: a number that rounding leaves as it is. *)
Definition is_binary64 (q : Qc) : Prop := round_binary64 q = q.

(** A multiple of [2^-1074], the smallest positive float. *)
Definition on_grid (q : Qc) : Prop :=
  ∃ k : Z, q = (Qc_of_Z k * pow2 (-1074))%Qc.

(** The relative error of a sum of [n] numbers added one by one, every
    addition rounded with the relative error [u]: [(1 + u)^n - 1]. *)
Fixpoint sum_error (u : Qc) (n : nat) : Qc :=
  match n with
  | O => 0%Qc
  | S n => (sum_error u n + u + sum_error u n * u)%Qc
  end.

(** * Properties *)

(** ** Dictionaries *)

Module DictFacts.
Section facts.
Context {V : Type}.
Implicit Types (d : dict V) (k : string) (v : V).

Lemma get_setitem_eq d k v : Dict.get (Dict.setitem d k v) k = Some v.
Proof.
  induction d as [|[k' v'] d IH]; simpl.
  - by rewrite decide_True.
  - destruct (decide (k' = k)) as [->|Hne]; simpl.
    + by rewrite decide_True.
    + by rewrite decide_False.
Qed.

Lemma get_setitem_ne d k k' v :
  k ≠ k' → Dict.get (Dict.setitem d k v) k' = Dict.get d k'.
Proof.
  intros Hne. induction d as [|[k0 v0] d IH]; simpl.
  - by rewrite decide_False.
  - destruct (decide (k0 = k)) as [->|Hk0]; simpl.
    + by rewrite !decide_False.
    + by rewrite IH.
Qed.

Lemma get_None d k : Dict.get d k = None ↔ k ∉ Dict.keys d.
Proof.
  unfold Dict.keys. induction d as [|[k' v'] d IH]; simpl.
  - split; [intros _; apply not_elem_of_nil | done].
  - rewrite not_elem_of_cons. destruct (decide (k' = k)) as [->|Hne].
    + split; [done | by intros [? _]].
    + rewrite IH. split; [intros ?; split; [congruence | done] | by intros [_ ?]].
Qed.

Lemma get_Some_elem_of d k v : Dict.get d k = Some v → (k, v) ∈ d.
Proof.
  induction d as [|[k' v'] d IH]; simpl; [done|].
  destruct (decide (k' = k)) as [->|Hne].
  - intros Hv. injection Hv as ->. apply list_elem_of_here.
  - intros ?. apply list_elem_of_further. auto.
Qed.

Lemma elem_of_get d k v : Dict.wf d → (k, v) ∈ d → Dict.get d k = Some v.
Proof.
  unfold Dict.wf, Dict.keys. induction d as [|[k' v'] d IH]; simpl.
  - intros _ Hin. by apply elem_of_nil in Hin.
  - rewrite NoDup_cons. intros [Hk' Hnd] Hin.
    apply elem_of_cons in Hin as [[= -> ->]|Hin].
    + by rewrite decide_True.
    + rewrite decide_False; [by apply IH|].
      intros ->. apply Hk'. apply list_elem_of_fmap. by exists (k, v).
Qed.

Lemma keys_setitem d k v :
  Dict.keys (Dict.setitem d k v) =
  match Dict.get d k with
  | Some _ => Dict.keys d
  | None => Dict.keys d ++ [k]
  end.
Proof.
  unfold Dict.keys. induction d as [|[k' v'] d IH]; simpl; [done|].
  destruct (decide (k' = k)) as [->|Hne]; [done|].
  rewrite fmap_cons, IH. by destruct (Dict.get d k).
Qed.

Lemma wf_setitem d k v : Dict.wf d → Dict.wf (Dict.setitem d k v).
Proof.
  unfold Dict.wf. rewrite keys_setitem.
  destruct (Dict.get d k) eqn:Hg; [done|].
  intros Hnd. apply NoDup_app. split_and!; [done| |apply NoDup_singleton].
  intros x Hx ->%list_elem_of_singleton. by apply get_None in Hg.
Qed.

Lemma to_map_lookup d k : Dict.to_map d !! k = Dict.get d k.
Proof.
  unfold Dict.to_map. induction d as [|[k' v'] d IH]; simpl; [done|].
  destruct (decide (k' = k)) as [->|Hne].
  - by rewrite lookup_insert_eq.
  - by rewrite lookup_insert_ne.
Qed.

Lemma to_map_eq d1 d2 :
  (∀ k, Dict.get d1 k = Dict.get d2 k) ↔ Dict.to_map d1 = Dict.to_map d2.
Proof.
  split.
  - intros H. apply map_eq. intros k. by rewrite !to_map_lookup.
  - intros H k. by rewrite <-!to_map_lookup, H.
Qed.

(** Two dicts with the same entries hold the same items, in some order. *)
Lemma items_Permutation d1 d2 :
  Dict.wf d1 → Dict.wf d2 →
  (∀ k, Dict.get d1 k = Dict.get d2 k) → Dict.items d1 ≡ₚ Dict.items d2.
Proof.
  intros Hw1 Hw2 Hget. unfold Dict.items.
  apply NoDup_Permutation.
  - eapply NoDup_fmap_1, Hw1.
  - eapply NoDup_fmap_1, Hw2.
  - intros [k v]. split; intros Hin.
    + apply get_Some_elem_of. rewrite <-Hget. by apply elem_of_get.
    + apply get_Some_elem_of. rewrite Hget. by apply elem_of_get.
Qed.
End facts.
End DictFacts.

(** ** Change aggregation *)

Section aggregation.
Import DictFacts.
Implicit Types (d : dict Z) (c : commit) (file : string).

(** One increment, seen through [get]. *)
Lemma get_increment d file k :
  Dict.get (increment d file) k =
  if decide (file = k) then Some (count_of d file + 1) else Dict.get d k.
Proof.
  unfold increment, defaultdict_getitem, count_of.
  destruct (Dict.get d file) as [v|] eqn:Hg; simpl.
  - destruct (decide (file = k)) as [->|Hne].
    + apply get_setitem_eq.
    + by apply get_setitem_ne.
  - destruct (decide (file = k)) as [->|Hne].
    + apply get_setitem_eq.
    + by rewrite !get_setitem_ne.
Qed.

Lemma count_of_increment d file k :
  count_of (increment d file) k =
  count_of d k + (if decide (file = k) then 1 else 0).
Proof.
  unfold count_of at 1 2. rewrite get_increment.
  destruct (decide (file = k)) as [->|Hne]; simpl; [done | lia].
Qed.

Lemma wf_increment d file : Dict.wf d → Dict.wf (increment d file).
Proof.
  intros Hwf. unfold increment, defaultdict_getitem.
  destruct (Dict.get d file); simpl; auto using wf_setitem.
Qed.

(** What holds of the accumulator at every point of a pass: no key
    twice, and every stored count at least one. *)
Lemma pass_state_inv d :
  pass_state d → Dict.wf d ∧ ∀ k v, Dict.get d k = Some v → 1 ≤ v.
Proof.
  induction 1 as [|d file _ [IHwf IHpos]].
  - split; [apply NoDup_nil_2 | done].
  - split; [by apply wf_increment|].
    intros k v. rewrite get_increment.
    destruct (decide (file = k)) as [->|Hne]; [|by apply IHpos].
    intros Hv. injection Hv as <-. unfold count_of.
    destruct (Dict.get d k) as [w|] eqn:Hg; simpl; [|done].
    apply IHpos in Hg. lia.
Qed.

Lemma pass_state_files d files :
  pass_state d → pass_state (fold_left increment files d).
Proof.
  revert d. induction files as [|f files IH]; intros d Hd; simpl; [done|].
  apply IH. by constructor.
Qed.

Lemma pass_state_commit d c : pass_state d → pass_state (process_commit d c).
Proof. apply pass_state_files. Qed.

Lemma pass_state_commits d commits :
  pass_state d → pass_state (fold_left process_commit commits d).
Proof.
  revert d. induction commits as [|c commits IH]; intros d Hd; simpl; [done|].
  by apply IH, pass_state_commit.
Qed.

Lemma pass_state_extract commits :
  pass_state (extract_file_change_history commits).
Proof. apply pass_state_commits. constructor. Qed.

Lemma FileChangeRecord_inv d :
  FileChangeRecord d → Dict.wf d ∧ ∀ k v, Dict.get d k = Some v → 1 ≤ v.
Proof. intros [commits ->]. apply pass_state_inv, pass_state_extract. Qed.

(** Counts never go down while files are being counted. *)
Lemma count_of_files_mono d files k :
  count_of d k ≤ count_of (fold_left increment files d) k.
Proof.
  revert d. induction files as [|f files IH]; intros d; simpl; [done|].
  etrans; [|apply IH]. rewrite count_of_increment. case_decide; lia.
Qed.

(** A key, once stored, stays stored. *)
Lemma get_files_pres d files k :
  is_Some (Dict.get d k) → is_Some (Dict.get (fold_left increment files d) k).
Proof.
  revert d. induction files as [|f files IH]; intros d Hd; simpl; [done|].
  apply IH. rewrite get_increment. case_decide; [by eexists | done].
Qed.

(** The whole pass is one run of [increment] over the files of all
    commits, in the order met. *)
Lemma extract_flat commits d :
  fold_left process_commit commits d =
  fold_left increment (mjoin (stats_files_keys <$> commits)) d.
Proof.
  revert d. induction commits as [|c commits IH]; intros d; simpl; [done|].
  rewrite IH. unfold process_commit. symmetry. apply fold_left_app.
Qed.

(** [increment] depends on the entries only, and two of them commute. *)
Lemma increment_ext d1 d2 file :
  (∀ k, Dict.get d1 k = Dict.get d2 k) →
  ∀ k, Dict.get (increment d1 file) k = Dict.get (increment d2 file) k.
Proof.
  intros Heq k. rewrite !get_increment. unfold count_of.
  rewrite (Heq file). case_decide; [done | apply Heq].
Qed.

Lemma increment_swap d f g k :
  Dict.get (increment (increment d f) g) k =
  Dict.get (increment (increment d g) f) k.
Proof.
  rewrite !get_increment. unfold count_of. rewrite !get_increment.
  repeat case_decide; simplify_eq; done.
Qed.

Lemma increments_ext files d1 d2 :
  (∀ k, Dict.get d1 k = Dict.get d2 k) →
  ∀ k, Dict.get (fold_left increment files d1) k =
       Dict.get (fold_left increment files d2) k.
Proof.
  revert d1 d2. induction files as [|f files IH]; intros d1 d2 Heq; [done|].
  simpl. apply IH. by apply increment_ext.
Qed.

Lemma increments_Permutation files1 files2 d :
  files1 ≡ₚ files2 →
  ∀ k, Dict.get (fold_left increment files1 d) k =
       Dict.get (fold_left increment files2 d) k.
Proof.
  intros Hp. revert d.
  induction Hp as [|f l1 l2 _ IH|f g l|l1 l2 l3 _ IH1 _ IH2]; intros d k.
  - done.
  - simpl. apply IH.
  - simpl. apply increments_ext. intros k'. apply increment_swap.
  - by rewrite IH1, IH2.
Qed.
End aggregation.

Section aggregation_claims.
Import DictFacts.
Local Open Scope string_scope.
Local Open Scope Z_scope.

Lemma extract_snoc commits c :
  extract_file_change_history (commits ++ [c]) =
  process_commit (extract_file_change_history commits) c.
Proof. unfold extract_file_change_history. by rewrite fold_left_app. Qed.

(** C8. A pass over no commit returns the empty record; a commit
    that touched no file leaves the record as it is, wherever it comes in
    the pass, and a pass over one such commit returns the empty record.
    The function is total: no input makes it raise. *)
Theorem C8_no_commit_no_file :
  extract_file_change_history [] = [] ∧
  (∀ d, process_commit d (Commit []) = d) ∧
  (∀ commits1 commits2,
     extract_file_change_history (commits1 ++ Commit [] :: commits2) =
     extract_file_change_history (commits1 ++ commits2)) ∧
  extract_file_change_history [Commit []] = [].
Proof.
  split_and!; try done.
  intros commits1 commits2. unfold extract_file_change_history.
  by rewrite !fold_left_app.
Qed.

(** C9. During a pass no stored count is negative, and no count ever goes
    down.  [n] is the position of the commit [c] in the sequence, [before]
    the record built from the first [n] commits and [after] the record once
    [c] has been processed.  A file with an entry before the commit has an
    entry after it, with a count at least as large.  The same holds inside
    the commit: [mid] is the record when the inner loop reaches [file]; the
    lookup of [+= 1] may store a zero for [file], which the assignment then
    raises to one. *)
Theorem C9_counts_nonneg_never_decrease commits n c :
  commits !! n = Some c →
  let before := extract_file_change_history (take n commits) in
  let after := extract_file_change_history (take (S n) commits) in
  after = process_commit before c ∧
  counts_nonneg before ∧ counts_nonneg after ∧
  (∀ file, count_of before file ≤ count_of after file) ∧
  (∀ file v, Dict.get before file = Some v →
     ∃ v', Dict.get after file = Some v' ∧ v ≤ v') ∧
  (∀ files_done file files_todo,
     stats_files_keys c = (files_done ++ file :: files_todo)%list →
     let mid := fold_left increment files_done before in
     counts_nonneg mid ∧
     counts_nonneg (defaultdict_getitem mid file).2 ∧
     counts_nonneg (increment mid file) ∧
     ∀ k, count_of before k ≤ count_of mid k ∧
          count_of mid k ≤ count_of (increment mid file) k ∧
          count_of (increment mid file) k ≤ count_of after k).
Proof.
  intros Hc before after.
  assert (Hstep : after = process_commit before c).
  { subst before after. erewrite take_S_r by done. apply extract_snoc. }
  assert (Hnonneg : ∀ d, pass_state d → counts_nonneg d).
  { intros d [_ Hone]%pass_state_inv file v Hg. apply Hone in Hg. lia. }
  assert (Hbefore : pass_state before) by apply pass_state_extract.
  split_and!; [done | by apply Hnonneg | apply Hnonneg, pass_state_extract
              | | |].
  - intros file. rewrite Hstep. apply count_of_files_mono.
  - intros file v Hg.
    destruct (get_files_pres before (stats_files_keys c) file) as [v' Hv'];
      [by eexists|].
    exists v'. rewrite Hstep. split; [done|].
    pose proof (count_of_files_mono before (stats_files_keys c) file) as Hm.
    unfold count_of, process_commit in *. by rewrite Hg, Hv' in Hm.
  - intros files_done file files_todo Hfiles mid.
    assert (Hmid : pass_state mid) by by apply pass_state_files.
    split_and!; [by apply Hnonneg | | by apply Hnonneg, pass_incr |].
    + unfold defaultdict_getitem.
      destruct (Dict.get mid file) eqn:Hg; simpl; [by apply Hnonneg|].
      intros k v. destruct (decide (file = k)) as [->|Hne].
      * rewrite get_setitem_eq. intros Hv. injection Hv as <-. done.
      * rewrite get_setitem_ne by done. by apply Hnonneg.
    + intros k. split_and!.
      * apply count_of_files_mono.
      * rewrite count_of_increment. case_decide; lia.
      * rewrite Hstep. unfold process_commit. rewrite Hfiles.
        rewrite fold_left_app. cbn [fold_left]. apply count_of_files_mono.
Qed.

Lemma C9_witness :
  let commits := [Commit ["a.py"]; Commit ["a.py"; "b.py"]] in
  commits !! 1%nat = Some (Commit ["a.py"; "b.py"]) ∧
  count_of (extract_file_change_history (take 1 commits)) "a.py" ≤
  count_of (extract_file_change_history (take 2 commits)) "a.py".
Proof.
  split; [reflexivity|].
  apply (C9_counts_nonneg_never_decrease
           [Commit ["a.py"]; Commit ["a.py"; "b.py"]] 1
           (Commit ["a.py"; "b.py"])).
  reflexivity.
Defined.

(** C4. The record does not depend on the order of the commits: two
    sequences that are permutations of one another give the same
    mapping from files to counts.  The two dicts hold the same items;
    only the order in which the keys were inserted can differ. *)
Theorem C4_order_independent commits1 commits2 :
  commits1 ≡ₚ commits2 →
  (∀ file, Dict.get (extract_file_change_history commits1) file =
           Dict.get (extract_file_change_history commits2) file) ∧
  Dict.to_map (extract_file_change_history commits1) =
    Dict.to_map (extract_file_change_history commits2) ∧
  Dict.items (extract_file_change_history commits1) ≡ₚ
    Dict.items (extract_file_change_history commits2).
Proof.
  intros Hp.
  assert (Hget : ∀ file,
    Dict.get (extract_file_change_history commits1) file =
    Dict.get (extract_file_change_history commits2) file).
  { intros file. unfold extract_file_change_history.
    rewrite !extract_flat. apply increments_Permutation.
    by rewrite Hp. }
  split_and!; [done | by apply to_map_eq |].
  apply items_Permutation; [| |done].
  - apply pass_state_inv, pass_state_extract.
  - apply pass_state_inv, pass_state_extract.
Qed.

Lemma C4_witness :
  let c1 := Commit ["a.py"] in
  let c2 := Commit ["b.py"; "a.py"] in
  Dict.to_map (extract_file_change_history [c1; c2]) =
  Dict.to_map (extract_file_change_history [c2; c1]).
Proof.
  apply (C4_order_independent
           [Commit ["a.py"]; Commit ["b.py"; "a.py"]]
           [Commit ["b.py"; "a.py"]; Commit ["a.py"]]).
  apply perm_swap.
Defined.
End aggregation_claims.

(** ** Sums of scores *)

Section sums.
Local Open Scope Qc_scope.
Implicit Types (x t : Qc) (xs : list Qc).

Lemma fold_left_Qcplus xs x : fold_left Qcplus xs x = x + sum xs.
Proof.
  unfold sum. revert x. induction xs as [|y xs IH]; intros x; simpl.
  - by rewrite Qcplus_0_r.
  - rewrite IH, (IH (0 + y)), Qcplus_0_l. symmetry. apply Qcplus_assoc.
Qed.

Lemma sum_nil : sum [] = 0.
Proof. done. Qed.

Lemma sum_cons x xs : sum (x :: xs) = x + sum xs.
Proof. unfold sum at 1. simpl. by rewrite fold_left_Qcplus, Qcplus_0_l. Qed.

Lemma sum_scale xs t : sum ((λ v, v / t) <$> xs) = sum xs / t.
Proof.
  induction xs as [|x xs IH].
  - unfold Qcdiv. by rewrite fmap_nil, sum_nil, Qcmult_0_l.
  - rewrite fmap_cons, !sum_cons, IH. unfold Qcdiv.
    by rewrite Qcmult_plus_distr_l.
Qed.

Lemma sum_all_zero xs : Forall (λ v, v = 0) xs → sum xs = 0.
Proof.
  induction 1 as [|x xs -> _ IH]; [done|].
  by rewrite sum_cons, IH, Qcplus_0_l.
Qed.

Lemma sum_nonneg xs : Forall (λ v, 0 ≤ v) xs → 0 ≤ sum xs.
Proof.
  induction 1 as [|x xs Hx _ IH]; [done|].
  rewrite sum_cons. by apply Qcplus_nonneg_nonneg.
Qed.

Lemma sum_pos xs :
  xs ≠ [] → Forall (λ v, 0 < v) xs → 0 < sum xs.
Proof.
  intros Hne Hall. destruct Hall as [|x xs Hx Hxs]; [done|].
  rewrite sum_cons. apply Qcplus_pos_nonneg; [done|].
  apply sum_nonneg. eapply Forall_impl; [done|]. intros. by apply Qclt_le_weak.
Qed.

Lemma elem_le_sum xs x : Forall (λ v, 0 ≤ v) xs → x ∈ xs → x ≤ sum xs.
Proof.
  induction 1 as [|y xs Hy Hxs IH]; [by intros ?%elem_of_nil|].
  rewrite sum_cons. intros [->|Hin]%elem_of_cons.
  - rewrite <-(Qcplus_0_r y) at 1. by apply Qcplus_le_mono_l, sum_nonneg.
  - trans (sum xs); [by apply IH|].
    rewrite <-(Qcplus_0_l (sum xs)) at 1. by apply Qcplus_le_mono_r.
Qed.

Lemma div_unit_interval x t : 0 ≤ x → x ≤ t → 0 < t → 0 ≤ x / t ≤ 1.
Proof.
  intros Hx Hxt Ht. unfold Qcdiv.
  assert (0 < / t) as Hinv by by apply Qcinv_pos.
  split.
  - apply Qcmult_nonneg_nonneg; [done | by apply Qclt_le_weak].
  - rewrite <-(Qcmult_inv_r t) by by apply not_eq_sym, Qclt_not_eq.
    by apply Qcmult_le_mono_pos_r.
Qed.

Lemma one_within_tolerance : 1 - tolerance ≤ 1 ≤ 1 + tolerance.
Proof. split; by vm_compute. Qed.

(** Relative errors of the terms carry over to the sum. *)
Lemma sum_within_rel u approx exact :
  Forall2 (within_rel u) approx exact →
  within_rel u (sum approx) (sum exact).
Proof.
  unfold within_rel.
  induction 1 as [|r s approx exact [Hlo Hhi] _ [IHlo IHhi]].
  - rewrite sum_nil, !Qcmult_0_l. done.
  - rewrite !sum_cons, !Qcmult_plus_distr_l.
    split; by apply Qcplus_le_compat.
Qed.

Lemma roundoff_within_tolerance r :
  within_rel unit_roundoff r 1 → 1 - tolerance ≤ r ≤ 1 + tolerance.
Proof.
  unfold within_rel. rewrite !Qcmult_1_l. intros [Hlo Hhi]. split.
  - trans (1 - unit_roundoff); [by vm_compute | done].
  - trans (1 + unit_roundoff); [done | by vm_compute].
Qed.

(** The inverse of a number near one is near one. *)
Lemma inv_near_one t δ :
  0 ≤ δ → δ + δ ≤ 1 → 1 - δ ≤ t → t ≤ 1 + δ →
  0 < t ∧ 1 - (δ + δ) ≤ / t ∧ / t ≤ 1 + (δ + δ).
Proof.
  intros Hδ Hhalf Hlo Hhi.
  assert (0 ≤ 1 - (δ + δ)) as Hnn.
  { apply (Qcplus_le_mono_r _ _ (δ + δ)).
    by replace (1 - (δ + δ) + (δ + δ)) with 1 by ring; rewrite Qcplus_0_l. }
  assert (0 < t) as Ht.
  { eapply Qclt_le_trans; [|exact Hlo].
    destruct (Qclt_le_dec 0 (1 - δ)) as [|Hneg]; [done|].
    assert (0 < (1 - δ) + (1 - δ)) as Hpos.
    { replace ((1 - δ) + (1 - δ)) with ((1 - (δ + δ)) + 1) by ring.
      apply Qcplus_nonneg_pos; [done | by vm_compute]. }
    apply Qclt_not_le in Hpos. destruct Hpos.
    by apply Qcplus_nonpos_nonpos. }
  split; [done|].
  assert (/ t * t = 1) as Hinv
    by by apply Qcmult_inv_l, not_eq_sym, Qclt_not_eq.
  split.
  - apply (Qcmult_le_mono_pos_r _ _ t Ht). rewrite Hinv.
    trans ((1 - (δ + δ)) * (1 + δ)).
    + by apply Qcmult_le_mono_nonneg_l.
    + replace ((1 - (δ + δ)) * (1 + δ)) with (1 - δ * (1 + (δ + δ))) by ring.
      apply (Qcplus_le_mono_r _ _ (δ * (1 + (δ + δ)))).
      replace (1 - δ * (1 + (δ + δ)) + δ * (1 + (δ + δ))) with (1 + 0) by ring.
      apply Qcplus_le_mono_l. apply Qcmult_nonneg_nonneg; [done|].
      apply Qcplus_nonneg_nonneg; [by vm_compute|].
      by apply Qcplus_nonneg_nonneg.
  - apply (Qcmult_le_mono_pos_r _ _ t Ht). rewrite Hinv.
    trans ((1 + (δ + δ)) * (1 - δ)).
    + replace ((1 + (δ + δ)) * (1 - δ)) with (1 + δ * (1 - (δ + δ))) by ring.
      rewrite <-(Qcplus_0_r 1) at 1.
      apply Qcplus_le_mono_l. by apply Qcmult_nonneg_nonneg.
    + apply Qcmult_le_mono_nonneg_l; [|done].
      apply Qcplus_nonneg_nonneg; [by vm_compute|].
      by apply Qcplus_nonneg_nonneg.
Qed.
End sums.

(** ** Score normalisation *)

Section normalisation.
Import DictFacts.
Local Open Scope Qc_scope.
Implicit Types (h : heap) (raw acc : dict Qc) (t : Qc).

Lemma setitem_fresh {V} (d : dict V) k v :
  k ∉ Dict.keys d → Dict.setitem d k v = d ++ [(k, v)].
Proof.
  unfold Dict.keys. induction d as [|[k' v'] d IH]; [done|].
  rewrite fmap_cons, not_elem_of_cons. intros [Hne Hk]. simpl.
  rewrite decide_False by done. by rewrite IH.
Qed.

Lemma loop_result_fresh t its acc :
  NoDup (Dict.keys acc ++ Dict.keys its) →
  loop_result t its acc = acc ++ (prod_map id (λ v, v / t) <$> its).
Proof.
  unfold loop_result, Dict.keys.
  revert acc. induction its as [|[k v] its IH]; intros acc Hnd.
  - by rewrite fmap_nil, app_nil_r.
  - rewrite fmap_cons in Hnd. simpl in Hnd.
    apply NoDup_app in Hnd as (Hacc & Hdisj & Hits).
    apply NoDup_cons in Hits as [Hk Hits].
    cbn [fold_left]. rewrite setitem_fresh.
    2:{ intros Hin. apply (Hdisj _ Hin). apply list_elem_of_here. }
    rewrite IH.
    + rewrite fmap_cons. by rewrite <-app_assoc.
    + rewrite fmap_app, <-app_assoc.
      apply NoDup_app. split_and!; [done| |by apply NoDup_cons].
      intros x Hx Hin. apply (Hdisj _ Hx). done.
Qed.

Lemma bind_run {A B} (m : M A) (k : A → M B) h a h' :
  m h = (inr a, h') → bind m k h = k a h'.
Proof. intros Hm. unfold bind. by rewrite Hm. Qed.

Lemma dict_values_run h l d :
  h !! l = Some d → dict_values l h = (inr (Dict.values d), h).
Proof. intros Hl. unfold dict_values, bind, deref. by rewrite Hl. Qed.

Lemma dict_items_run h l d :
  h !! l = Some d → dict_items l h = (inr (Dict.items d), h).
Proof. intros Hl. unfold dict_items, bind, deref. by rewrite Hl. Qed.

Lemma dict_setitem_run h l d k v :
  h !! l = Some d →
  dict_setitem l k v h = (inr (), <[l := Dict.setitem d k v]> h).
Proof. intros Hl. unfold dict_setitem. by rewrite Hl. Qed.

Lemma truediv_run h a t : t ≠ 0 → truediv a t h = (inr (a / t), h).
Proof. intros Ht. unfold truediv. by rewrite decide_False. Qed.

(** The loop writes to [bug_scores] only. *)
Lemma for_each_run t out its h acc :
  t ≠ 0 → h !! out = Some acc →
  for_each its (λ '(file, changes),
    q <- truediv changes t ;; dict_setitem out file q) h =
  (inr (), <[out := loop_result t its acc]> h).
Proof.
  intros Ht. revert h acc.
  induction its as [|[k v] its IH]; intros h acc Hout.
  - cbn [for_each]. unfold ret, loop_result. cbn [fold_left].
    by rewrite list_insert_id.
  - cbn [for_each].
    erewrite bind_run.
    2:{ erewrite bind_run; [|by apply truediv_run].
        by apply dict_setitem_run. }
    erewrite IH.
    + by rewrite list_insert_insert_eq.
    + apply list_lookup_insert_eq. by eapply lookup_lt_Some.
Qed.

(** A run of [calculate_bug_scores]: the result is a new object at the end
    of the store, and the store is otherwise as it was. *)
Lemma calculate_bug_scores_run h fcc raw :
  h !! fcc = Some raw →
  calculate_bug_scores fcc h =
  (inr (length h),
   h ++ [if decide (sum (Dict.values raw) = 0) then []
         else loop_result (sum (Dict.values raw)) (Dict.items raw) []]).
Proof.
  intros Hfcc. unfold calculate_bug_scores.
  erewrite bind_run; [|by apply dict_values_run].
  erewrite bind_run; [|reflexivity].
  destruct (decide (sum (Dict.values raw) = 0)) as [Hz|Hnz]; [done|].
  assert ((h ++ [[]]) !! fcc = Some raw) as Hfcc'.
  { rewrite lookup_app_l; [done | by eapply lookup_lt_Some]. }
  erewrite bind_run; [|by apply dict_items_run].
  erewrite bind_run; [|by apply for_each_run, list_lookup_middle].
  unfold ret. f_equal.
  replace (length h) with (length h + 0)%nat at 1 by lia.
  by rewrite insert_app_r.
Qed.

Lemma scores_of_loop raw :
  Dict.wf raw →
  scores_of raw =
  if decide (sum (Dict.values raw) = 0) then []
  else loop_result (sum (Dict.values raw)) (Dict.items raw) [].
Proof.
  intros Hwf. unfold scores_of. case_decide; [done|].
  by rewrite loop_result_fresh.
Qed.

Lemma call_calculate_bug_scores raw :
  Dict.wf raw → call calculate_bug_scores raw = inr (scores_of raw).
Proof.
  intros Hwf. unfold call.
  rewrite (calculate_bug_scores_run [raw] 0%nat raw) by done.
  cbn [length app lookup list_lookup]. by rewrite scores_of_loop.
Qed.

Lemma keys_scores_of raw :
  sum (Dict.values raw) ≠ 0 → Dict.keys (scores_of raw) = Dict.keys raw.
Proof.
  intros Hnz. unfold scores_of, Dict.keys. rewrite decide_False by done.
  rewrite <-list_fmap_compose. by apply list_fmap_ext; intros ? [].
Qed.

Lemma values_scores_of raw :
  sum (Dict.values raw) ≠ 0 →
  Dict.values (scores_of raw) =
  (λ v, v / sum (Dict.values raw)) <$> Dict.values raw.
Proof.
  intros Hnz. unfold scores_of, Dict.values. rewrite decide_False by done.
  rewrite <-!list_fmap_compose. by apply list_fmap_ext; intros ? [].
Qed.

Lemma get_scores_of raw file :
  sum (Dict.values raw) ≠ 0 →
  Dict.get (scores_of raw) file =
  (λ v, v / sum (Dict.values raw)) <$> Dict.get raw file.
Proof.
  intros Hnz. unfold scores_of. rewrite decide_False by done.
  generalize (sum (Dict.values raw)). clear Hnz. intros t.
  induction raw as [|[k v] raw IH]; [done|].
  rewrite fmap_cons. simpl. by case_decide.
Qed.

Lemma sum_scores_of raw :
  sum (Dict.values raw) ≠ 0 → sum (Dict.values (scores_of raw)) = 1.
Proof.
  intros Hnz. rewrite values_scores_of, sum_scale by done.
  unfold Qcdiv. by apply Qcmult_inv_r.
Qed.

Lemma call_zero_total raw :
  sum (Dict.values raw) = 0 → call calculate_bug_scores raw = inr [].
Proof.
  intros Hz. unfold call.
  rewrite (calculate_bug_scores_run [raw] 0%nat raw) by done.
  by rewrite decide_True.
Qed.

Lemma wf_scores_of raw : Dict.wf raw → Dict.wf (scores_of raw).
Proof.
  intros Hwf. unfold scores_of. case_decide; [apply NoDup_nil_2|].
  unfold Dict.wf, Dict.keys. rewrite <-list_fmap_compose.
  erewrite list_fmap_ext; [exact Hwf|]. by intros ? [].
Qed.
End normalisation.

(** Well-formedness of a dict that is written out, by evaluation. *)
Ltac concrete_wf :=
  unfold Dict.wf; apply (bool_decide_unpack _); by vm_compute.

Section normalisation_claims.
Import DictFacts.
Local Open Scope string_scope.
Local Open Scope Qc_scope.
Implicit Types (h : heap) (raw : dict Qc).

Lemma keys_as_numbers (d : dict Z) : Dict.keys (as_numbers d) = Dict.keys d.
Proof.
  unfold as_numbers, Dict.keys. rewrite <-list_fmap_compose.
  by apply list_fmap_ext; intros ? [].
Qed.

Lemma values_as_numbers (d : dict Z) :
  Dict.values (as_numbers d) = Qc_of_Z <$> Dict.values d.
Proof.
  unfold as_numbers, Dict.values. rewrite <-!list_fmap_compose.
  by apply list_fmap_ext; intros ? [].
Qed.

Lemma get_as_numbers (d : dict Z) file :
  Dict.get (as_numbers d) file = Qc_of_Z <$> Dict.get d file.
Proof.
  unfold as_numbers. induction d as [|[k v] d IH]; [done|].
  rewrite fmap_cons. simpl. by case_decide.
Qed.

(** The total of a record that is not empty is positive. *)
Lemma FileChangeRecord_total_pos (d : dict Z) :
  FileChangeRecord d → d ≠ [] → 0 < sum (Dict.values (as_numbers d)).
Proof.
  intros [Hwf Hone]%FileChangeRecord_inv Hne.
  rewrite values_as_numbers. apply sum_pos.
  - unfold Dict.values. by destruct d.
  - apply Forall_fmap, Forall_fmap, Forall_forall. intros [k v] Hin. simpl.
    rewrite <-Z2Qc_inj_0. apply (proj1 (Z2Qc_inj_lt 0 v)).
    apply elem_of_get in Hin; [|done]. apply Hone in Hin. lia.
Qed.

(** C1. For a record returned by the aggregation that is not empty,
    [calculate_bug_scores] returns (without raising) a score map with the
    keys of the record, in which the score of every file is its count
    divided by the total of all counts, and whose scores add up to one,
    hence to one within [1e-9].  Scores are exact quotients here.  The
    last part covers the rounding of the quotients: numbers that are the
    scores up to a relative error of [2^-53] each still add up to one
    within [1e-9]. *)
Theorem C1_scores_sum_to_one (d : dict Z) :
  FileChangeRecord d → d ≠ [] →
  let raw := as_numbers d in
  let total := sum (Dict.values raw) in
  ∃ scores,
    call calculate_bug_scores raw = inr scores ∧
    sum (Dict.values scores) = 1 ∧
    1 - tolerance ≤ sum (Dict.values scores) ≤ 1 + tolerance ∧
    Dict.keys scores = Dict.keys d ∧
    (∀ file, Dict.get scores file =
             (λ changes, Qc_of_Z changes / total) <$> Dict.get d file) ∧
    (∀ rounded,
       Forall2 (within_rel unit_roundoff) rounded (Dict.values scores) →
       1 - tolerance ≤ sum rounded ≤ 1 + tolerance).
Proof.
  intros Hrec Hne raw total.
  assert (total ≠ 0) as Hnz.
  { apply not_eq_sym, Qclt_not_eq. by apply FileChangeRecord_total_pos. }
  assert (Dict.wf raw) as Hwf.
  { unfold Dict.wf, raw. rewrite keys_as_numbers.
    by apply FileChangeRecord_inv. }
  exists (scores_of raw). split_and!.
  - by apply call_calculate_bug_scores.
  - by apply sum_scores_of.
  - rewrite sum_scores_of by done. apply one_within_tolerance.
  - rewrite sum_scores_of by done. apply one_within_tolerance.
  - rewrite keys_scores_of by done. apply keys_as_numbers.
  - intros file. rewrite get_scores_of by done. subst total raw.
    rewrite get_as_numbers. by destruct (Dict.get d file).
  - intros rounded Hrel%sum_within_rel.
    rewrite sum_scores_of in Hrel by done.
    by apply roundoff_within_tolerance.
Qed.

Lemma C1_witness :
  let d := extract_file_change_history
             [Commit ["a.py"]; Commit ["a.py"; "b.py"]] in
  d ≠ [] ∧
  ∃ scores, call calculate_bug_scores (as_numbers d) = inr scores ∧
            sum (Dict.values scores) = 1.
Proof.
  intros d. assert (d ≠ []) as Hne by (by vm_compute).
  split; [exact Hne|].
  destruct (C1_scores_sum_to_one d) as (scores & Hcall & Hsum & _).
  - by eexists.
  - exact Hne.
  - by exists scores.
Defined.

(** C2. When the values of the input add up to zero the result is the
    empty score map, and nothing is raised; so it is for the empty map and
    for a map whose values are all zero. *)
Theorem C2_zero_total_gives_empty raw :
  (sum (Dict.values raw) = 0 → call calculate_bug_scores raw = inr []) ∧
  (raw = [] → call calculate_bug_scores raw = inr []) ∧
  (Forall (λ v, v = 0) (Dict.values raw) →
   call calculate_bug_scores raw = inr []).
Proof.
  split_and!; [apply call_zero_total| |].
  - intros ->. by apply call_zero_total.
  - intros Hall. by apply call_zero_total, sum_all_zero.
Qed.

Lemma C2_witness :
  let raw := [("a.py", 0); ("b.py", 0)] in
  Forall (λ v, v = 0) (Dict.values raw) ∧
  call calculate_bug_scores raw = inr [].
Proof.
  intros raw.
  assert (Forall (λ v, v = 0) (Dict.values raw)) as Hall.
  { repeat constructor. }
  split; [exact Hall|].
  by apply (C2_zero_total_gives_empty raw).
Defined.

(** C10. A call on an input whose total is positive returns a new dict
    with the keys of the input, in the same order; when no value of the
    input is negative (the data model's condition on a score map) every
    score lies between zero and one.  The input object is not written to:
    after the call the store holds, at every reference it had before, the
    dict it held before, and the result lives at a reference that did not
    exist. *)
Theorem C10_same_keys_unit_interval_input_unchanged h fcc raw :
  h !! fcc = Some raw → Dict.wf raw → 0 < sum (Dict.values raw) →
  ∃ out scores h',
    calculate_bug_scores fcc h = (inr out, h') ∧
    h' !! out = Some scores ∧
    Dict.keys scores = Dict.keys raw ∧
    (Forall (λ v, 0 ≤ v) (Dict.values raw) →
     Forall (λ v, 0 ≤ v ≤ 1) (Dict.values scores)) ∧
    h' !! fcc = Some raw ∧
    h !! out = None ∧
    (∀ (l : loc) (d : dict Qc), h !! l = Some d → h' !! l = Some d).
Proof.
  intros Hfcc Hwf Hpos.
  assert (sum (Dict.values raw) ≠ 0) as Hnz
    by by apply not_eq_sym, Qclt_not_eq.
  assert (∀ (l : loc) (d : dict Qc),
            h !! l = Some d → (h ++ [scores_of raw])%list !! l = Some d)
    as Hframe.
  { intros l d Hl. rewrite lookup_app_l; [done | by eapply lookup_lt_Some]. }
  exists (length h), (scores_of raw), (h ++ [scores_of raw])%list.
  split_and!.
  - rewrite (calculate_bug_scores_run h fcc raw) by done.
    by rewrite scores_of_loop.
  - apply list_lookup_middle. done.
  - by apply keys_scores_of.
  - intros Hnonneg. rewrite values_scores_of by done.
    apply Forall_fmap, Forall_forall. intros v Hv. simpl.
    apply div_unit_interval; [|by apply elem_le_sum|done].
    by eapply Forall_forall in Hnonneg.
  - by apply Hframe.
  - by apply lookup_ge_None.
  - done.
Qed.

Lemma C10_witness :
  let raw := [("a.py", Qc_of_Z 2); ("b.py", Qc_of_Z 3)] in
  let h := [[("other", Qc_of_Z 7)]; raw] in
  h !! 1%nat = Some raw ∧ Dict.wf raw ∧ 0 < sum (Dict.values raw) ∧
  ∃ out scores h',
    calculate_bug_scores 1%nat h = (inr out, h') ∧
    h' !! out = Some scores ∧
    Dict.keys scores = Dict.keys raw ∧
    h' !! 1%nat = Some raw.
Proof.
  intros raw h.
  assert (Dict.wf raw) as Hwf by concrete_wf.
  assert (0 < sum (Dict.values raw)) as Hpos by by vm_compute.
  split_and!; [reflexivity | exact Hwf | exact Hpos |].
  destruct (C10_same_keys_unit_interval_input_unchanged h 1%nat raw)
    as (out & scores & h' & Hrun & Hout & Hkeys & _ & Hin & _);
    [reflexivity | exact Hwf | exact Hpos |].
  by exists out, scores, h'.
Defined.
End normalisation_claims.

(** ** The report *)

Section report.
Local Open Scope Qc_scope.
Implicit Types (x y : string * Qc) (l its : list (string * Qc)).

Global Instance score_ge_trans : Transitive score_ge.
Proof. intros x y z Hxy Hyz. unfold score_ge in *. by trans (y.2). Qed.

Lemma insert_by_score_Permutation x l : insert_by_score x l ≡ₚ x :: l.
Proof.
  induction l as [|y l IH]; simpl; [done|].
  case_decide; [|done]. rewrite IH. apply perm_swap.
Qed.

Lemma sorted_Permutation its : sorted_by_score_reverse its ≡ₚ its.
Proof.
  unfold sorted_by_score_reverse.
  induction its as [|x its IH]; simpl; [done|].
  by rewrite insert_by_score_Permutation, IH.
Qed.

Lemma length_sorted its : length (sorted_by_score_reverse its) = length its.
Proof. by rewrite sorted_Permutation. Qed.

Lemma insert_by_score_sorted x l :
  StronglySorted score_ge l → StronglySorted score_ge (insert_by_score x l).
Proof.
  induction 1 as [|y l Hl IH Hy]; simpl.
  - repeat constructor.
  - case_decide as Hlt.
    + constructor; [done|]. rewrite insert_by_score_Permutation.
      constructor; [|done]. unfold score_ge. by apply Qclt_le_weak.
    + apply Qcnot_lt_le in Hlt.
      constructor; [by constructor|]. constructor; [done|].
      eapply Forall_impl; [exact Hy|]. intros z Hz. by trans y.
Qed.

(** The sort puts higher scores first. *)
Lemma sorted_StronglySorted its :
  StronglySorted score_ge (sorted_by_score_reverse its).
Proof.
  unfold sorted_by_score_reverse.
  induction its as [|x its IH]; simpl; [constructor|].
  by apply insert_by_score_sorted.
Qed.

Lemma filter_insert_by_score s x l :
  filter (λ e, e.2 = s) (insert_by_score x l) =
  filter (λ e, e.2 = s) (x :: l).
Proof.
  induction l as [|y l IH]; cbn [insert_by_score]; [done|].
  case_decide as Hlt; [|done].
  rewrite (filter_cons _ y), IH, !filter_cons.
  destruct (decide (x.2 = s)) as [Hx|Hx]; [|done].
  destruct (decide (y.2 = s)) as [Hy|Hy]; [|done].
  rewrite Hx, Hy in Hlt. by apply (irreflexivity Qclt s) in Hlt.
Qed.

(** The sort is stable: the items that have a given score come out in
    the order they went in. *)
Lemma sorted_stable s its :
  filter (λ e, e.2 = s) (sorted_by_score_reverse its) =
  filter (λ e, e.2 = s) its.
Proof.
  unfold sorted_by_score_reverse.
  induction its as [|x its IH]; cbn [foldr]; [done|].
  by rewrite filter_insert_by_score, !filter_cons, IH.
Qed.

(** A list in descending order of score is determined by the order of
    the items within each score: whatever stable sort is used, the result
    is the same list. *)
Lemma stable_sorted_unique l1 l2 :
  StronglySorted score_ge l1 → StronglySorted score_ge l2 →
  (∀ s, filter (λ e, e.2 = s) l1 = filter (λ e, e.2 = s) l2) →
  l1 = l2.
Proof.
  intros Hs1. revert l2.
  induction Hs1 as [|x l1 Hs1 IH Hx]; intros l2 Hs2 Hfilter.
  - destruct l2 as [|y l2]; [done|].
    specialize (Hfilter (y.2)). rewrite filter_cons, decide_True in Hfilter by done.
    by rewrite filter_nil in Hfilter.
  - destruct Hs2 as [|y l2 Hs2 Hy].
    { specialize (Hfilter (x.2)).
      rewrite filter_cons, decide_True in Hfilter by done.
      by rewrite filter_nil in Hfilter. }
    assert (x.2 ≤ y.2) as Hxy.
    { assert (x ∈ y :: l2) as Hin.
      { eapply (list_elem_of_filter (λ e, e.2 = x.2)).
        rewrite <-Hfilter, filter_cons, decide_True by done.
        apply list_elem_of_here. }
      apply elem_of_cons in Hin as [->|Hin]; [done|].
      by eapply Forall_forall in Hy. }
    assert (y.2 ≤ x.2) as Hyx.
    { assert (y ∈ x :: l1) as Hin.
      { eapply (list_elem_of_filter (λ e, e.2 = y.2)).
        rewrite Hfilter, filter_cons, decide_True by done.
        apply list_elem_of_here. }
      apply elem_of_cons in Hin as [->|Hin]; [done|].
      by eapply Forall_forall in Hx. }
    assert (x.2 = y.2) as Heq by by apply Qcle_antisym.
    assert (x = y) as <-.
    { specialize (Hfilter (x.2)).
      rewrite !filter_cons, !decide_True in Hfilter by done.
      by injection Hfilter. }
    f_equal. apply IH; [done|]. intros s. specialize (Hfilter s).
    rewrite !filter_cons in Hfilter.
    destruct (decide (x.2 = s)); [by injection Hfilter | done].
Qed.

Lemma sorted_by_score_reverse_unique its l :
  StronglySorted score_ge l →
  (∀ s, filter (λ e, e.2 = s) l = filter (λ e, e.2 = s) its) →
  l = sorted_by_score_reverse its.
Proof.
  intros Hl Hstable. apply stable_sorted_unique; [done| |].
  - apply sorted_StronglySorted.
  - intros s. by rewrite sorted_stable.
Qed.

Lemma filter_sublist_mono {A} (P : A → Prop) `{!∀ a, Decision (P a)}
    (l1 l2 : list A) :
  l1 `sublist_of` l2 → filter P l1 `sublist_of` filter P l2.
Proof.
  induction 1 as [|a l1 l2 _ IH|a l1 l2 _ IH]; [done| |].
  - rewrite !filter_cons. case_decide; [by constructor | done].
  - rewrite filter_cons. case_decide; [by constructor | done].
Qed.

Lemma sorted_ties_in_input_order its f g s :
  [(f, s); (g, s)] `sublist_of` sorted_by_score_reverse its →
  [(f, s); (g, s)] `sublist_of` its.
Proof.
  intros Hsub.
  apply (filter_sublist_mono (λ e, e.2 = s)) in Hsub.
  rewrite sorted_stable in Hsub.
  rewrite !filter_cons, !decide_True, filter_nil in Hsub by done.
  etrans; [exact Hsub | apply sublist_filter].
Qed.

Lemma entries_generate_report (bug_scores : dict Qc) top_n :
  entries (generate_report bug_scores top_n) =
  slice_to top_n (sorted_by_score_reverse (Dict.items bug_scores)).
Proof.
  unfold generate_report, entries, enumerate1. cbn [omap list_omap].
  generalize (slice_to top_n (sorted_by_score_reverse (Dict.items bug_scores))).
  intros l. generalize S. intros g. revert g.
  induction l as [|[f s] l IH]; intros g; [done|].
  cbn. f_equal. apply IH.
Qed.

Lemma generate_report_items (bug_scores : dict Qc) top_n :
  generate_report bug_scores top_n =
  Heading top_n ::
  imap (λ i e, Item (S i) e.1 e.2)
       (entries (generate_report bug_scores top_n)).
Proof.
  rewrite entries_generate_report. unfold generate_report, enumerate1.
  f_equal.
  generalize (slice_to top_n (sorted_by_score_reverse (Dict.items bug_scores))).
  intros l. rewrite fmap_imap. apply imap_ext. by intros i [f s] _.
Qed.

Lemma slice_to_nonneg {A} (n : Z) (l : list A) :
  (0 ≤ n)%Z → slice_to n l = take (Z.to_nat n) l.
Proof. intros Hn. unfold slice_to. by rewrite decide_True. Qed.
End report.

Section report_claims.
Local Open Scope string_scope.
Local Open Scope Qc_scope.

(** C3, as the specification states it, fails: two files with the
    score one half, stored as [b.py] then [a.py], are listed in that
    order, the larger path first. *)
Lemma C3_ties_not_by_path :
  (0 < 2)%Z ∧
  ¬ StronglySorted score_then_path
      (entries (generate_report
                  [("b.py", Q2Qc (1 # 2)); ("a.py", Q2Qc (1 # 2))] 2)).
Proof.
  split; [done|]. intros Hsorted.
  apply StronglySorted_inv in Hsorted as [_ Hhd].
  apply Forall_inv in Hhd as [Hlt|[_ Hpath]].
  - by apply (irreflexivity Qclt) in Hlt.
  - by vm_compute in Hpath.
Qed.

(** C3, amended. For a positive [top_n] the report is the heading
    followed by the listed files numbered from one; there are [top_n] of
    them, or all if the map has fewer; they are in descending order of
    score and no file left out has a higher score than a listed one; two
    listed files with the same score appear in the order in which the
    map holds them (its insertion order), whatever their paths.  The
    report is determined by the items of the map in their order. *)
Theorem C3_report_sorted_stable (bug_scores : dict Qc) (top_n : Z) :
  (0 < top_n)%Z →
  let es := entries (generate_report bug_scores top_n) in
  generate_report bug_scores top_n =
    Heading top_n :: imap (λ i e, Item (S i) e.1 e.2) es ∧
  length es = (Z.to_nat top_n `min` length bug_scores)%nat ∧
  StronglySorted score_ge es ∧
  (∃ rest, (es ++ rest)%list ≡ₚ Dict.items bug_scores ∧
           StronglySorted score_ge (es ++ rest)%list) ∧
  (∀ f g s, [(f, s); (g, s)] `sublist_of` es →
            [(f, s); (g, s)] `sublist_of` Dict.items bug_scores) ∧
  (∀ other : dict Qc, Dict.items other = Dict.items bug_scores →
     generate_report other top_n = generate_report bug_scores top_n).
Proof.
  intros Hn es.
  assert (es = take (Z.to_nat top_n)
                 (sorted_by_score_reverse (Dict.items bug_scores))) as Hes.
  { subst es. rewrite entries_generate_report. apply slice_to_nonneg. lia. }
  split_and!.
  - apply generate_report_items.
  - by rewrite Hes, length_take, length_sorted.
  - rewrite Hes. eapply StronglySorted_app_1_l.
    rewrite take_drop. apply sorted_StronglySorted.
  - exists (drop (Z.to_nat top_n)
              (sorted_by_score_reverse (Dict.items bug_scores))).
    rewrite Hes, take_drop.
    split; [apply sorted_Permutation | apply sorted_StronglySorted].
  - intros f g s Hsub. apply sorted_ties_in_input_order.
    etrans; [exact Hsub|]. rewrite Hes. apply sublist_take.
  - unfold Dict.items. by intros other ->.
Qed.

Lemma C3_witness :
  let d := [("b.py", Q2Qc (1 # 4)); ("c.py", Q2Qc (1 # 2));
            ("a.py", Q2Qc (1 # 4))] in
  (0 < 2)%Z ∧ StronglySorted score_ge (entries (generate_report d 2)).
Proof.
  intros d. split; [done|].
  by apply (C3_report_sorted_stable d 2).
Defined.

(** C6. When [top_n] is larger than the number of entries of the map,
    the report lists every entry once: as many lines as the map has
    entries, the items of the map in sorted order.  The function has no
    failing case. *)
Theorem C6_top_n_beyond_size (bug_scores : dict Qc) (top_n : Z) :
  (Z.of_nat (length bug_scores) < top_n)%Z →
  let es := entries (generate_report bug_scores top_n) in
  length es = length bug_scores ∧
  es ≡ₚ Dict.items bug_scores ∧
  es = sorted_by_score_reverse (Dict.items bug_scores) ∧
  length (generate_report bug_scores top_n) = S (length bug_scores).
Proof.
  intros Hn es.
  assert (es = sorted_by_score_reverse (Dict.items bug_scores)) as Hes.
  { subst es. rewrite entries_generate_report, slice_to_nonneg by lia.
    apply take_ge. rewrite length_sorted. unfold Dict.items. lia. }
  split_and!.
  - by rewrite Hes, length_sorted.
  - rewrite Hes. apply sorted_Permutation.
  - done.
  - rewrite generate_report_items. fold es.
    cbn [length]. by rewrite length_imap, Hes, length_sorted.
Qed.

Lemma C6_witness :
  let d := [("b.py", Q2Qc (1 # 4)); ("c.py", Q2Qc (1 # 2));
            ("a.py", Q2Qc (1 # 4))] in
  (Z.of_nat (length d) < 10)%Z ∧
  length (entries (generate_report d 10)) = 3%nat.
Proof.
  intros d. split; [done|].
  by apply (C6_top_n_beyond_size d 10).
Defined.
End report_claims.

(** ** Scenarios *)

Section scenarios.
Local Open Scope string_scope.

(** Three commits, oldest first: the counts, the scores and the report. *)
Example scenario_counts :
  extract_file_change_history
    [Commit ["a.py"]; Commit ["a.py"; "b.py"]; Commit ["b.py"]] =
  [("a.py", 2); ("b.py", 2)].
Proof. reflexivity. Qed.

Example scenario_report :
  sum_map id (fractions ∘ entries)
    (approach1 [Commit ["a.py"]; Commit ["a.py"; "b.py"]; Commit ["b.py"]]) =
  inr [("a.py", 1 # 2); ("b.py", 1 # 2)].
Proof. by vm_compute. Qed.

(** The same commits met newest first give the same counts, stored in
    the other order, and the report lists the two files the other way
    round. *)
Example scenario_report_newest_first :
  sum_map id (fractions ∘ entries)
    (approach1 [Commit ["b.py"]; Commit ["a.py"; "b.py"]; Commit ["a.py"]]) =
  inr [("b.py", 1 # 2); ("a.py", 1 # 2)].
Proof. by vm_compute. Qed.

(** A slice with a negative bound drops from the end, as in Python. *)
Example slice_to_negative : slice_to (-1) [1; 2; 3] = [1; 2].
Proof. reflexivity. Qed.
End scenarios.

(** ** More on the change aggregation *)

Section aggregation_more.
Import DictFacts.
Local Open Scope string_scope.
Local Open Scope Z_scope.
Implicit Types (d : dict Z) (c : commit) (file : string).

Lemma count_of_increments d files file :
  count_of (fold_left increment files d) file =
  count_of d file + Z.of_nat (length (filter (λ f, f = file) files)).
Proof.
  revert d. induction files as [|f files IH]; intros d.
  - cbn [fold_left]. rewrite filter_nil. simpl. lia.
  - cbn [fold_left]. rewrite IH, count_of_increment, filter_cons.
    case_decide; simpl; lia.
Qed.

Lemma count_of_extract commits file :
  count_of (extract_file_change_history commits) file =
  Z.of_nat (length (filter (λ f, f = file)
                           (mjoin (stats_files_keys <$> commits)))).
Proof.
  unfold extract_file_change_history.
  by rewrite extract_flat, count_of_increments.
Qed.

Lemma length_filter_eq_NoDup (files : list string) file :
  NoDup files →
  length (filter (λ f, f = file) files) =
  if decide (file ∈ files) then 1%nat else 0%nat.
Proof.
  induction 1 as [|f files Hf _ IH].
  - rewrite filter_nil. by rewrite decide_False by apply not_elem_of_nil.
  - rewrite filter_cons. destruct (decide (f = file)) as [->|Hne].
    + cbn [length]. rewrite IH.
      rewrite (decide_False (P := file ∈ files)) by done.
      by rewrite decide_True by apply list_elem_of_here.
    + rewrite IH. destruct (decide (file ∈ files)) as [Hin|Hin].
      * by rewrite decide_True by by apply list_elem_of_further.
      * rewrite decide_False; [done|].
        intros [?|?]%elem_of_cons; [congruence | done].
Qed.

(** X1. The count of a file is the number of commits that touched it.  The
    files of a commit are the keys of a dict, hence distinct. *)
Theorem count_is_number_of_commits commits file :
  Forall (λ c, NoDup (stats_files_keys c)) commits →
  count_of (extract_file_change_history commits) file =
  Z.of_nat (length (filter (λ c, file ∈ stats_files_keys c) commits)).
Proof.
  intros Hnd. rewrite count_of_extract. f_equal.
  induction Hnd as [|c commits Hc _ IH]; [done|].
  rewrite fmap_cons.
  change (mjoin (stats_files_keys c :: (stats_files_keys <$> commits)))
    with (stats_files_keys c ++ mjoin (stats_files_keys <$> commits))%list.
  rewrite filter_app, length_app, IH, filter_cons.
  rewrite length_filter_eq_NoDup by done.
  by destruct (decide (file ∈ stats_files_keys c)).
Qed.

Lemma count_is_number_of_commits_witness :
  let commits := [Commit ["a.py"]; Commit ["b.py"; "a.py"]; Commit ["b.py"]] in
  Forall (λ c, NoDup (stats_files_keys c)) commits ∧
  count_of (extract_file_change_history commits) "a.py" =
  Z.of_nat (length (filter (λ c, "a.py" ∈ stats_files_keys c) commits)).
Proof.
  intros commits.
  assert (Forall (λ c, NoDup (stats_files_keys c)) commits) as Hnd.
  { repeat constructor; simpl; by apply (bool_decide_unpack _). }
  split; [exact Hnd|].
  by apply (count_is_number_of_commits commits "a.py").
Defined.

Lemma get_increments_is_Some d files file :
  is_Some (Dict.get (fold_left increment files d) file) ↔
  is_Some (Dict.get d file) ∨ file ∈ files.
Proof.
  revert d. induction files as [|f files IH]; intros d.
  - cbn [fold_left]. split; [by left|].
    intros [?|?%elem_of_nil]; done.
  - cbn [fold_left]. rewrite IH, get_increment, elem_of_cons.
    destruct (decide (f = file)) as [->|Hne].
    + split; [intros _; right; by left | intros _; left; by eexists].
    + split; [intros [?|?]; auto | intros [?|[?|?]]; auto; congruence].
Qed.

(** X2. A file has an entry in the record exactly when some commit touched
    it, and then its count is at least one. *)
Theorem entry_iff_touched commits file :
  (is_Some (Dict.get (extract_file_change_history commits) file) ↔
   ∃ c, c ∈ commits ∧ file ∈ stats_files_keys c) ∧
  (∀ v, Dict.get (extract_file_change_history commits) file = Some v →
        1 ≤ v).
Proof.
  split.
  - unfold extract_file_change_history.
    rewrite extract_flat, get_increments_is_Some, list_elem_of_join.
    split.
    + intros [[? [=]]|(files & Hfile & Hfiles)].
      apply list_elem_of_fmap in Hfiles as (c & -> & Hc). by exists c.
    + intros (c & Hc & Hfile). right. exists (stats_files_keys c).
      split; [done|]. apply list_elem_of_fmap. by exists c.
  - apply pass_state_inv, pass_state_extract.
Qed.

Lemma keys_increment d file :
  Dict.keys (increment d file) =
  match Dict.get d file with
  | Some _ => Dict.keys d
  | None => (Dict.keys d ++ [file])%list
  end.
Proof.
  unfold increment, defaultdict_getitem.
  destruct (Dict.get d file) eqn:Hg; simpl.
  - by rewrite keys_setitem, Hg.
  - by rewrite !keys_setitem, get_setitem_eq, Hg.
Qed.

Lemma keys_increments_prefix d files :
  Dict.keys d `prefix_of` Dict.keys (fold_left increment files d).
Proof.
  revert d. induction files as [|f files IH]; intros d; [done|].
  cbn [fold_left]. etrans; [|apply IH].
  rewrite keys_increment. destruct (Dict.get d f); [done|].
  by apply prefix_app_r.
Qed.

(** X3. Keys are stored in the order in which the files are first met: the
    commits that follow add new files at the end and leave the keys present
    where they are. *)
Theorem keys_grow_at_the_end commits1 commits2 :
  Dict.keys (extract_file_change_history commits1) `prefix_of`
  Dict.keys (extract_file_change_history (commits1 ++ commits2)%list).
Proof.
  unfold extract_file_change_history at 2. rewrite fold_left_app.
  fold (extract_file_change_history commits1).
  rewrite extract_flat. apply keys_increments_prefix.
Qed.

(** X4. Batches add up: the count over a sequence of commits is the sum of
    the counts over its two parts. *)
Theorem counts_add_over_batches commits1 commits2 file :
  count_of (extract_file_change_history (commits1 ++ commits2)%list) file =
  count_of (extract_file_change_history commits1) file +
  count_of (extract_file_change_history commits2) file.
Proof.
  rewrite !count_of_extract, fmap_app, join_app, filter_app, length_app. lia.
Qed.
End aggregation_more.

(** ** More on the normalisation *)

Section normalisation_more.
Import DictFacts.
Local Open Scope string_scope.
Local Open Scope Qc_scope.
Implicit Types (h : heap) (raw : dict Qc).

Lemma sum_app xs ys : sum (xs ++ ys)%list = sum xs + sum ys.
Proof.
  induction xs as [|x xs IH]; cbn [app].
  - by rewrite sum_nil, Qcplus_0_l.
  - by rewrite !sum_cons, IH, Qcplus_assoc.
Qed.

Lemma setitem_setitem {V} (d : dict V) k (v v' : V) :
  Dict.setitem (Dict.setitem d k v) k v' = Dict.setitem d k v'.
Proof.
  induction d as [|[k0 v0] d IH]; simpl.
  - by rewrite decide_True.
  - destruct (decide (k0 = k)) as [->|Hne]; simpl.
    + by rewrite decide_True.
    + by rewrite decide_False, IH.
Qed.

Lemma sum_counts_increment (d : dict Z) file :
  sum (Dict.values (as_numbers (increment d file))) =
  sum (Dict.values (as_numbers d)) + 1.
Proof.
  rewrite !values_as_numbers. unfold increment, defaultdict_getitem.
  destruct (Dict.get d file) as [v|] eqn:Hg; simpl.
  - unfold Dict.values. induction d as [|[k w] d IH]; [done|].
    simpl in Hg. cbn [Dict.setitem].
    destruct (decide (k = file)) as [->|Hne].
    + injection Hg as ->. rewrite !fmap_cons, !sum_cons. simpl.
      rewrite Z2Qc_inj_add, Z2Qc_inj_1. ring.
    + rewrite !fmap_cons, !sum_cons, IH by done. ring.
  - apply get_None in Hg.
    rewrite setitem_setitem, setitem_fresh by done.
    unfold Dict.values. rewrite !fmap_app, sum_app. f_equal.
Qed.
Lemma sum_counts_increments (d : dict Z) files :
  sum (Dict.values (as_numbers (fold_left increment files d))) =
  sum (Dict.values (as_numbers d)) + Qc_of_Z (Z.of_nat (length files)).
Proof.
  revert d. induction files as [|f files IH]; intros d.
  - cbn [fold_left length]. change (Z.of_nat 0) with 0%Z.
    by rewrite Z2Qc_inj_0, Qcplus_0_r.
  - cbn [fold_left length]. rewrite IH, sum_counts_increment.
    rewrite Nat2Z.inj_succ, <-Z.add_1_l, Z2Qc_inj_add, Z2Qc_inj_1. ring.
Qed.

(** X5. The total by which [calculate_bug_scores] divides the counts of a
    record is the number of file changes in the history: the changed files
    of all commits, counted once per commit. *)
Theorem total_is_number_of_changes commits :
  sum (Dict.values (as_numbers (extract_file_change_history commits))) =
  Qc_of_Z (Z.of_nat (length (mjoin (stats_files_keys <$> commits)))).
Proof.
  unfold extract_file_change_history.
  rewrite extract_flat, sum_counts_increments.
  unfold as_numbers, Dict.values. by rewrite !fmap_nil, sum_nil, Qcplus_0_l.
Qed.

Lemma get_loop_result_is_Some t its (acc : dict Qc) file :
  is_Some (Dict.get (loop_result t its acc) file) ↔
  is_Some (Dict.get acc file) ∨ file ∈ its.*1.
Proof.
  revert acc. unfold loop_result.
  induction its as [|[k v] its IH]; intros acc.
  - cbn [fold_left]. rewrite fmap_nil.
    split; [by left | by intros [?|?%elem_of_nil]].
  - cbn [fold_left]. rewrite IH, fmap_cons, elem_of_cons. simpl.
    destruct (decide (k = file)) as [->|Hne].
    + rewrite get_setitem_eq. split; [intros _; right; by left|].
      intros _. left. by eexists.
    + rewrite get_setitem_ne by done.
      split; [intros [?|?]; auto | intros [?|[?|?]]; auto; congruence].
Qed.

Lemma calculate_bug_scores_keys h fcc raw :
  h !! fcc = Some raw →
  ∃ scores,
    calculate_bug_scores fcc h = (inr (length h), (h ++ [scores])%list) ∧
    (sum (Dict.values raw) = 0 → scores = []) ∧
    (sum (Dict.values raw) ≠ 0 →
     ∀ file, is_Some (Dict.get scores file) ↔ is_Some (Dict.get raw file)).
Proof.
  intros Hfcc. rewrite (calculate_bug_scores_run h fcc raw) by done.
  eexists. split; [done|].
  destruct (decide (sum (Dict.values raw) = 0)) as [Hz|Hnz]; [done|].
  split; [done|]. intros _ file. rewrite get_loop_result_is_Some.
  unfold Dict.items. split.
  - intros [[? [=]]|Hin].
    destruct (Dict.get raw file) eqn:Hg; [by eexists|].
    by apply get_None in Hg.
  - intros [v Hg]. right. apply get_Some_elem_of in Hg.
    apply list_elem_of_fmap. by exists (file, v).
Qed.

Lemma sum_zero_all_zero xs :
  Forall (λ v, 0 ≤ v) xs → sum xs = 0 → Forall (λ v, v = 0) xs.
Proof.
  induction 1 as [|x xs Hx Hxs IH]; [constructor|].
  rewrite sum_cons. intros Hsum.
  assert (x = 0) as ->.
  { apply Qcle_antisym; [|done]. rewrite <-Hsum.
    rewrite <-(Qcplus_0_r x) at 1. by apply Qcplus_le_mono_l, sum_nonneg. }
  rewrite Qcplus_0_l in Hsum. constructor; [done | by apply IH].
Qed.

(** X6. On a map of integer counts none of which is negative (the counts
    need not come from the aggregation and may all be zero)
    [calculate_bug_scores] never raises: the division is not reached with
    a zero total, and no quotient exceeds one.  The call returns a reference
    to a new object and leaves every object of the store as it was; the
    result is empty when all counts are zero and has the keys of the input
    otherwise. *)
Theorem calculate_bug_scores_never_raises h fcc (d : dict Z) :
  h !! fcc = Some (as_numbers d) →
  Forall (λ c, 0 ≤ c)%Z (Dict.values d) →
  ∃ scores,
    calculate_bug_scores fcc h = (inr (length h), (h ++ [scores])%list) ∧
    (Forall (λ c, c = 0%Z) (Dict.values d) → scores = []) ∧
    (¬ Forall (λ c, c = 0%Z) (Dict.values d) →
     ∀ file, is_Some (Dict.get scores file) ↔ is_Some (Dict.get d file)).
Proof.
  intros Hfcc Hnonneg.
  destruct (calculate_bug_scores_keys h fcc _ Hfcc)
    as (scores & Hrun & Hzero & Hkeys).
  exists scores. split; [done|]. rewrite values_as_numbers in Hzero, Hkeys.
  split.
  - intros Hall. apply Hzero, sum_all_zero, Forall_fmap.
    eapply Forall_impl; [exact Hall|]. intros c ->. apply Z2Qc_inj_0.
  - intros Hsome file. rewrite Hkeys.
    + by rewrite get_as_numbers, fmap_is_Some.
    + intros Hsum. apply Hsome. apply sum_zero_all_zero in Hsum.
      * apply Forall_fmap in Hsum. eapply Forall_impl; [exact Hsum|].
        intros c Hc. simpl in Hc. apply Z2Qc_inj. by rewrite Hc, Z2Qc_inj_0.
      * apply Forall_fmap. eapply Forall_impl; [exact Hnonneg|].
        intros c Hc. simpl. rewrite <-Z2Qc_inj_0.
        by apply (proj1 (Z2Qc_inj_le 0 c)).
Qed.

Lemma calculate_bug_scores_never_raises_witness :
  let d := [("a.py", 0%Z); ("b.py", 3%Z)] in
  let h := [as_numbers d] in
  Forall (λ c, 0 ≤ c)%Z (Dict.values d) ∧
  ∃ scores,
    calculate_bug_scores 0%nat h = (inr 1%nat, (h ++ [scores])%list).
Proof.
  intros d h.
  assert (Forall (λ c, 0 ≤ c)%Z (Dict.values d)) as Hnonneg
    by (apply (bool_decide_unpack _); by vm_compute).
  split; [exact Hnonneg|].
  destruct (calculate_bug_scores_never_raises h 0%nat d)
    as (scores & Hrun & _); [reflexivity | exact Hnonneg |].
  by exists scores.
Defined.

Lemma sum_scaled k xs : sum (Qcmult k <$> xs) = k * sum xs.
Proof.
  induction xs as [|x xs IH].
  - by rewrite fmap_nil, sum_nil, Qcmult_0_r.
  - rewrite fmap_cons, !sum_cons, IH. ring.
Qed.

(** With exact quotients a common non-zero factor cancels. *)
Lemma scores_of_scaled raw k :
  k ≠ 0 → scores_of (prod_map id (Qcmult k) <$> raw) = scores_of raw.
Proof.
  intros Hk.
  assert (Dict.values (prod_map id (Qcmult k) <$> raw) =
          Qcmult k <$> Dict.values raw) as Hvals.
  { unfold Dict.values. rewrite <-!list_fmap_compose.
    by apply list_fmap_ext; intros ? []. }
  unfold scores_of. rewrite Hvals, sum_scaled.
  destruct (decide (sum (Dict.values raw) = 0)) as [Hz|Hnz].
  - rewrite Hz, Qcmult_0_r. by rewrite decide_True.
  - rewrite decide_False.
    2:{ intros [?|?]%Qcmult_integral; done. }
    rewrite <-list_fmap_compose. apply list_fmap_ext.
    intros _ [file v] _. unfold prod_map. simpl. f_equal.
    unfold Qcdiv. rewrite Qcinv_mult_distr.
    replace (k * v * (/ k * / sum (Dict.values raw)))
      with ((k * / k) * (v * / sum (Dict.values raw))) by ring.
    by rewrite Qcmult_inv_r, Qcmult_1_l.
Qed.

(** X7. Only the proportions of the counts matter: multiplying every
    count of a map of integer counts, none negative, by the same positive
    integer gives the same scores.  The count and the total are integers,
    the score is their quotient, and the quotient of [k * a] by [k * total]
    is that of [a] by [total]; Python rounds the quotient of two integers
    once, so the scores are the same floats. *)
Theorem scores_scale_invariant (d : dict Z) (k : Z) :
  (0 < k)%Z → Dict.wf d → Forall (λ c, 0 ≤ c)%Z (Dict.values d) →
  call calculate_bug_scores (as_numbers (prod_map id (Z.mul k) <$> d)) =
  call calculate_bug_scores (as_numbers d).
Proof.
  intros Hk Hwf _.
  assert (as_numbers (prod_map id (Z.mul k) <$> d) =
          prod_map id (Qcmult (Qc_of_Z k)) <$> as_numbers d) as ->.
  { unfold as_numbers. rewrite <-!list_fmap_compose.
    apply list_fmap_ext. intros _ [file c] _. unfold prod_map. simpl.
    by rewrite Z2Qc_inj_mul. }
  assert (Dict.wf (as_numbers d)) as Hwf'.
  { unfold Dict.wf. by rewrite keys_as_numbers. }
  assert (Dict.wf (prod_map id (Qcmult (Qc_of_Z k)) <$> as_numbers d))
    as Hwf''.
  { unfold Dict.wf, Dict.keys. rewrite <-list_fmap_compose.
    erewrite list_fmap_ext; [exact Hwf'|]. by intros ? []. }
  rewrite !call_calculate_bug_scores by done. f_equal.
  apply scores_of_scaled. rewrite <-Z2Qc_inj_0. intros ?%Z2Qc_inj. lia.
Qed.

Lemma scores_scale_invariant_witness :
  let d := [("a.py", 1%Z); ("b.py", 3%Z)] in
  (0 < 5)%Z ∧ Dict.wf d ∧
  call calculate_bug_scores (as_numbers (prod_map id (Z.mul 5) <$> d)) =
  call calculate_bug_scores (as_numbers d).
Proof.
  intros d.
  assert (Dict.wf d) as Hwf by concrete_wf.
  split_and!; [done | exact Hwf |].
  apply (scores_scale_invariant d 5); [done | exact Hwf |].
  apply (bool_decide_unpack _). by vm_compute.
Defined.

(** X8. On a map of integer counts, none negative, with a positive total
    the scores never invert the order of the counts: a file whose count is
    at most that of another has a score at most that of the other, and a
    file with a smaller score has a smaller count.  (Equal scores for
    different counts are not excluded: rounding can merge two quotients.) *)
Theorem scores_keep_the_order (d : dict Z) scores f g (a b : Z) :
  Dict.wf d → Forall (λ c, 0 ≤ c)%Z (Dict.values d) →
  0 < sum (Dict.values (as_numbers d)) →
  call calculate_bug_scores (as_numbers d) = inr scores →
  Dict.get d f = Some a → Dict.get d g = Some b →
  ∃ a' b', Dict.get scores f = Some a' ∧ Dict.get scores g = Some b' ∧
           ((a ≤ b)%Z → a' ≤ b') ∧ (a' < b' → (a < b)%Z).
Proof.
  intros Hwf _ Hpos Hcall Hf Hg.
  assert (sum (Dict.values (as_numbers d)) ≠ 0) as Hnz
    by by apply not_eq_sym, Qclt_not_eq.
  assert (Dict.wf (as_numbers d)) as Hwf'.
  { unfold Dict.wf. by rewrite keys_as_numbers. }
  rewrite call_calculate_bug_scores in Hcall by done.
  injection Hcall as <-.
  exists (Qc_of_Z a / sum (Dict.values (as_numbers d))),
         (Qc_of_Z b / sum (Dict.values (as_numbers d))).
  rewrite !get_scores_of, !get_as_numbers, Hf, Hg by done.
  assert (0 < / sum (Dict.values (as_numbers d))) as Hinv
    by by apply Qcinv_pos.
  split_and!; [done..| |]; unfold Qcdiv.
  - intros Hab.
    apply (proj1 (Qcmult_le_mono_pos_r _ _ _ Hinv)).
    by apply (proj1 (Z2Qc_inj_le a b)).
  - intros Hab. apply (proj2 (Z2Qc_inj_lt a b)).
    by apply (proj2 (Qcmult_lt_mono_pos_r _ _ _ Hinv)).
Qed.

Lemma scores_keep_the_order_witness :
  let d := [("a.py", 1%Z); ("b.py", 3%Z)] in
  ∃ scores a' b',
    call calculate_bug_scores (as_numbers d) = inr scores ∧
    Dict.get scores "a.py" = Some a' ∧ Dict.get scores "b.py" = Some b' ∧
    ((1 ≤ 3)%Z → a' ≤ b').
Proof.
  intros d.
  assert (Dict.wf d) as Hwf by concrete_wf.
  assert (Dict.wf (as_numbers d)) as Hwf' by concrete_wf.
  assert (Forall (λ c, 0 ≤ c)%Z (Dict.values d)) as Hnonneg
    by (apply (bool_decide_unpack _); by vm_compute).
  assert (0 < sum (Dict.values (as_numbers d))) as Hpos by by vm_compute.
  destruct (scores_keep_the_order d (scores_of (as_numbers d)) "a.py" "b.py"
              1 3 Hwf Hnonneg Hpos)
    as (a' & b' & Ha & Hb & Hle & _);
    [by apply call_calculate_bug_scores | reflexivity | reflexivity |].
  exists (scores_of (as_numbers d)), a', b'.
  split_and!; [by apply call_calculate_bug_scores | done..].
Defined.

(** X9. In the scores of a change record every file has a positive score, at
    most one: no file of the history is scored zero. *)
Theorem record_scores_positive (d : dict Z) scores :
  FileChangeRecord d →
  call calculate_bug_scores (as_numbers d) = inr scores →
  Forall (λ v, 0 < v ∧ v ≤ 1) (Dict.values scores).
Proof.
  intros Hrec Hcall.
  destruct d as [|kv d'] eqn:Hd.
  { rewrite call_zero_total in Hcall by done. injection Hcall as <-.
    constructor. }
  rewrite <-Hd in *. assert (d ≠ []) as Hne by by rewrite Hd.
  clear Hd kv d'.
  pose proof (FileChangeRecord_total_pos d Hrec Hne) as Hpos.
  pose proof (FileChangeRecord_inv d Hrec) as [Hwf Hone].
  assert (sum (Dict.values (as_numbers d)) ≠ 0) as Hnz
    by by apply not_eq_sym, Qclt_not_eq.
  assert (Dict.wf (as_numbers d)) as Hwf'.
  { unfold Dict.wf. by rewrite keys_as_numbers. }
  rewrite call_calculate_bug_scores in Hcall by done.
  injection Hcall as <-.
  rewrite values_scores_of by done.
  apply Forall_fmap, Forall_forall. intros q Hq. simpl.
  assert (0 < q) as Hqpos.
  { rewrite values_as_numbers in Hq.
    apply list_elem_of_fmap in Hq as (v & -> & Hv).
    apply list_elem_of_fmap in Hv as ([k v'] & -> & Hin). simpl.
    rewrite <-Z2Qc_inj_0. apply (proj1 (Z2Qc_inj_lt 0 v')).
    apply elem_of_get in Hin; [|done]. apply Hone in Hin. lia. }
  split.
  - unfold Qcdiv. apply Qcmult_pos_pos; [done | by apply Qcinv_pos].
  - apply div_unit_interval; [by apply Qclt_le_weak | | done].
    apply elem_le_sum; [|done]. rewrite values_as_numbers.
    apply Forall_fmap, Forall_forall. intros v Hv. simpl.
    apply list_elem_of_fmap in Hv as ([k v'] & -> & Hin). simpl.
    rewrite <-Z2Qc_inj_0. apply (proj1 (Z2Qc_inj_le 0 v')).
    apply elem_of_get in Hin; [|done]. apply Hone in Hin. lia.
Qed.

Lemma record_scores_positive_witness :
  let d := extract_file_change_history
             [Commit ["a.py"]; Commit ["a.py"; "b.py"]] in
  ∃ scores, call calculate_bug_scores (as_numbers d) = inr scores ∧
            Forall (λ v, 0 < v ∧ v ≤ 1) (Dict.values scores).
Proof.
  intros d.
  assert (Dict.wf (as_numbers d)) as Hwf by concrete_wf.
  exists (scores_of (as_numbers d)).
  split; [by apply call_calculate_bug_scores|].
  apply (record_scores_positive d); [by eexists|].
  by apply call_calculate_bug_scores.
Defined.
End normalisation_more.

(** ** More on the report *)

Section report_more.
Import DictFacts.
Local Open Scope string_scope.
Local Open Scope Qc_scope.
Implicit Types (d : dict Qc) (n m : Z).

Lemma slice_to_sublist {A} n (l : list A) : slice_to n l `sublist_of` l.
Proof. unfold slice_to. case_decide; apply sublist_take. Qed.

(** X10. With an empty score map, or with [top_n = 0], the report is the
    heading alone. *)
Theorem report_heading_only :
  (∀ n, generate_report [] n = [Heading n]) ∧
  (∀ d, generate_report d 0 = [Heading 0]).
Proof.
  split.
  - intros n. rewrite generate_report_items, entries_generate_report.
    unfold slice_to, Dict.items, sorted_by_score_reverse. cbn [foldr].
    by case_decide; rewrite take_nil.
  - intros d. rewrite generate_report_items, entries_generate_report.
    by rewrite slice_to_nonneg.
Qed.

(** X11. A negative [top_n] does not give an empty report: as the slice
    [sorted_files[:top_n]] then counts from the end, the report lists every
    file but the [-top_n] with the lowest scores. *)
Theorem report_negative_top_n d n :
  (n < 0)%Z →
  let es := entries (generate_report d n) in
  ∃ dropped,
    (es ++ dropped)%list = sorted_by_score_reverse (Dict.items d) ∧
    length dropped = (Z.to_nat (- n) `min` length d)%nat ∧
    length es = (length d - Z.to_nat (- n))%nat.
Proof.
  intros Hn es. subst es. rewrite entries_generate_report.
  unfold slice_to. rewrite decide_False by lia.
  set (l := sorted_by_score_reverse (Dict.items d)).
  assert (length l = length d) as Hlen by apply length_sorted.
  exists (drop (length l - Z.to_nat (- n)) l). split_and!.
  - apply take_drop.
  - rewrite length_drop. lia.
  - rewrite length_take. lia.
Qed.

Lemma report_negative_top_n_witness :
  let d := [("b.py", Q2Qc (1 # 4)); ("c.py", Q2Qc (1 # 2));
            ("a.py", Q2Qc (1 # 4))] in
  (-1 < 0)%Z ∧ length (entries (generate_report d (-1))) = 2%nat.
Proof.
  intros d. split; [done|].
  destruct (report_negative_top_n d (-1)) as (dropped & _ & _ & Hlen);
    [done|].
  exact Hlen.
Defined.

(** X12. A shorter report is the beginning of a longer one: the top [n] are
    the first [n] of the top [m]. *)
Theorem report_prefix d n m :
  (0 ≤ n)%Z → (n ≤ m)%Z →
  entries (generate_report d n) =
  take (Z.to_nat n) (entries (generate_report d m)).
Proof.
  intros Hn Hm. rewrite !entries_generate_report, !slice_to_nonneg by lia.
  rewrite take_take. f_equal. lia.
Qed.

Lemma report_prefix_witness :
  let d := [("b.py", Q2Qc (1 # 4)); ("c.py", Q2Qc (1 # 2));
            ("a.py", Q2Qc (1 # 4))] in
  (0 ≤ 1)%Z ∧ (1 ≤ 2)%Z ∧
  entries (generate_report d 1) = take 1 (entries (generate_report d 2)).
Proof.
  intros d. split_and!; [done..|].
  by apply (report_prefix d 1 2).
Defined.

(** X13. Whatever [top_n] is, no file is listed twice, and every listed file
    is listed with the score the map holds for it. *)
Theorem report_lists_map_entries d n :
  Dict.wf d →
  let es := entries (generate_report d n) in
  NoDup es.*1 ∧ ∀ f s, (f, s) ∈ es → Dict.get d f = Some s.
Proof.
  intros Hwf es.
  assert (es `sublist_of` sorted_by_score_reverse (Dict.items d)) as Hsub.
  { subst es. rewrite entries_generate_report. apply slice_to_sublist. }
  split.
  - eapply sublist_NoDup; [|by apply fmap_sublist].
    by rewrite sorted_Permutation.
  - intros f s Hin. apply elem_of_get; [done|].
    eapply sublist_subseteq in Hin; [|exact Hsub].
    by rewrite sorted_Permutation in Hin.
Qed.

Lemma report_lists_map_entries_witness :
  let d := [("b.py", Q2Qc (1 # 4)); ("c.py", Q2Qc (1 # 2));
            ("a.py", Q2Qc (1 # 4))] in
  Dict.wf d ∧ NoDup (entries (generate_report d 2)).*1.
Proof.
  intros d. assert (Dict.wf d) as Hwf by concrete_wf.
  split; [exact Hwf|].
  by apply (report_lists_map_entries d 2).
Defined.

(** X14. Counting, normalising and reporting never raises, and the file
    listed first is one that was changed most often: no file has a higher
    count. *)
Theorem approach1_first_is_most_changed commits :
  ∃ report,
    approach1 commits = inr report ∧
    ∀ f s, entries report !! 0%nat = Some (f, s) →
      ∀ g, (count_of (extract_file_change_history commits) g ≤
            count_of (extract_file_change_history commits) f)%Z.
Proof.
  set (d := extract_file_change_history commits).
  assert (FileChangeRecord d) as Hrec by by eexists.
  destruct (FileChangeRecord_inv d Hrec) as [Hwf Hone].
  assert (Dict.wf (as_numbers d)) as Hwf'.
  { unfold Dict.wf. by rewrite keys_as_numbers. }
  unfold approach1. fold d. rewrite call_calculate_bug_scores by done.
  eexists. split; [done|]. intros f s Hfirst g.
  unfold generate_report_default in Hfirst.
  rewrite entries_generate_report, slice_to_nonneg in Hfirst by done.
  apply lookup_take_Some in Hfirst as [Hfirst _].
  set (scores := scores_of (as_numbers d)) in *.
  pose proof (sorted_StronglySorted (Dict.items scores)) as Hsorted.
  pose proof (sorted_Permutation (Dict.items scores)) as Hperm.
  destruct (sorted_by_score_reverse (Dict.items scores)) as [|x rest] eqn:Hl;
    [done|].
  injection Hfirst as ->.
  apply StronglySorted_inv in Hsorted as [_ Hrest].
  assert ((f, s) ∈ scores) as Hfs.
  { unfold Dict.items in Hperm. rewrite <-Hperm. apply list_elem_of_here. }
  assert (d ≠ []) as Hne.
  { intros Hd. subst scores. rewrite Hd in Hfs. by apply elem_of_nil in Hfs. }
  pose proof (FileChangeRecord_total_pos d Hrec Hne) as Hpos.
  assert (sum (Dict.values (as_numbers d)) ≠ 0) as Hnz
    by by apply not_eq_sym, Qclt_not_eq.
  assert (Dict.wf scores) as Hwfs by by apply wf_scores_of.
  apply elem_of_get in Hfs; [|done].
  subst scores. rewrite get_scores_of, get_as_numbers in Hfs by done.
  destruct (Dict.get d f) as [a|] eqn:Hf; [|done].
  injection Hfs as <-.
  unfold count_of. rewrite Hf. simpl.
  destruct (Dict.get d g) as [b|] eqn:Hg; simpl.
  2:{ apply Hone in Hf. lia. }
  assert ((g, Qc_of_Z b / sum (Dict.values (as_numbers d))) ∈
          scores_of (as_numbers d)) as Hin.
  { apply get_Some_elem_of.
    by rewrite get_scores_of, get_as_numbers, Hg by done. }
  unfold Dict.items in Hperm. rewrite <-Hperm in Hin.
  apply Z2Qc_inj_le.
  apply (Qcmult_le_mono_pos_r _ _ (/ sum (Dict.values (as_numbers d))));
    [by apply Qcinv_pos|].
  apply elem_of_cons in Hin as [Heq|Hin].
  - apply (f_equal snd) in Heq. simpl in Heq. unfold Qcdiv in Heq.
    by rewrite Heq.
  - eapply Forall_forall in Hrest; [|exact Hin]. exact Hrest.
Qed.
End report_more.

(** ** The simulated REPD model *)

Section repd.
Import DictFacts.
Local Open Scope string_scope.
Local Open Scope Qc_scope.
Implicit Types (h : heap) (tree : walk) (random : nat → Qc).
Implicit Types (relpath : string → string → string).

Lemma gather_files_acc relpath root (files acc : list string) :
  fold_left (λ repo_files file,
      if endswith_any file code_suffixes
      then (repo_files ++ [relpath root file])%list
      else repo_files) files acc =
  (acc ++ (relpath root <$>
           filter (λ file, endswith_any file code_suffixes = true)
                  files))%list.
Proof.
  revert acc. induction files as [|file files IH]; intros acc.
  - cbn [fold_left]. by rewrite filter_nil, fmap_nil, app_nil_r.
  - cbn [fold_left]. rewrite IH, filter_cons.
    destruct (endswith_any file code_suffixes) eqn:Hcode.
    + rewrite decide_True by done. by rewrite fmap_cons, <-app_assoc.
    + by rewrite decide_False by done.
Qed.

Lemma gather_tree_acc relpath tree (acc : list string) :
  fold_left (λ repo_files '(root, files),
    fold_left (λ repo_files file,
      if endswith_any file code_suffixes
      then (repo_files ++ [relpath root file])%list
      else repo_files) files repo_files) tree acc =
  (acc ++ code_files relpath tree)%list.
Proof.
  unfold code_files. revert acc.
  induction tree as [|[root files] tree IH]; intros acc.
  - cbn [fold_left]. by rewrite app_nil_r.
  - cbn [fold_left]. by rewrite IH, gather_files_acc, bind_cons, app_assoc.
Qed.

Lemma gather_repo_files_code_files relpath tree :
  gather_repo_files relpath tree = code_files relpath tree.
Proof. unfold gather_repo_files. by rewrite gather_tree_acc. Qed.

Lemma elem_of_code_files relpath tree path :
  path ∈ code_files relpath tree ↔
  ∃ root files file,
    (root, files) ∈ tree ∧ file ∈ files ∧
    endswith_any file code_suffixes = true ∧ path = relpath root file.
Proof.
  unfold code_files. rewrite list_elem_of_bind. split.
  - intros ([root files] & Hpath & Hin).
    apply list_elem_of_fmap in Hpath as (file & -> & Hfile).
    apply list_elem_of_filter in Hfile as [Hcode Hfile].
    by exists root, files, file.
  - intros (root & files & file & Hin & Hfile & Hcode & ->).
    exists (root, files). split; [|done].
    apply list_elem_of_fmap. exists file. split; [done|].
    by apply list_elem_of_filter.
Qed.

Lemma wf_dict_of_pairs pairs acc :
  Dict.wf acc → Dict.wf (dict_of_pairs pairs acc).
Proof.
  unfold dict_of_pairs. revert acc.
  induction pairs as [|[k v] pairs IH]; intros acc Hwf; [done|].
  cbn [fold_left]. by apply IH, wf_setitem.
Qed.

Lemma get_dict_of_pairs_is_Some pairs acc k :
  is_Some (Dict.get (dict_of_pairs pairs acc) k) ↔
  is_Some (Dict.get acc k) ∨ k ∈ pairs.*1.
Proof.
  unfold dict_of_pairs. revert acc.
  induction pairs as [|[k0 v] pairs IH]; intros acc.
  - cbn [fold_left]. rewrite fmap_nil.
    split; [by left | by intros [?|?%elem_of_nil]].
  - cbn [fold_left]. rewrite IH, fmap_cons, elem_of_cons. simpl.
    destruct (decide (k0 = k)) as [->|Hne].
    + rewrite get_setitem_eq. split; [intros _; right; by left|].
      intros _. left. by eexists.
    + rewrite get_setitem_ne by done.
      split; [intros [?|?]; auto | intros [?|[?|?]]; auto; congruence].
Qed.

Lemma dict_of_pairs_fresh pairs acc :
  NoDup (Dict.keys acc ++ pairs.*1) →
  dict_of_pairs pairs acc = (acc ++ pairs)%list.
Proof.
  unfold dict_of_pairs, Dict.keys. revert acc.
  induction pairs as [|[k v] pairs IH]; intros acc Hnd.
  - cbn [fold_left]. by rewrite app_nil_r.
  - rewrite fmap_cons in Hnd. simpl in Hnd.
    apply NoDup_app in Hnd as (Hacc & Hdisj & Hpairs).
    apply NoDup_cons in Hpairs as [Hk Hpairs].
    cbn [fold_left]. rewrite setitem_fresh.
    2:{ intros Hin. apply (Hdisj _ Hin). apply list_elem_of_here. }
    rewrite IH; [by rewrite <-app_assoc|].
    rewrite fmap_app, <-app_assoc.
    apply NoDup_app. split_and!; [done| |by apply NoDup_cons].
    intros x Hx Hin. by apply (Hdisj _ Hx).
Qed.

Lemma for_each_setitem_run out pairs h acc :
  h !! out = Some acc →
  for_each pairs (λ '(file, r), dict_setitem out file r) h =
  (inr (), <[out := dict_of_pairs pairs acc]> h).
Proof.
  revert h acc. induction pairs as [|[k v] pairs IH]; intros h acc Hout.
  - cbn [for_each]. unfold ret, dict_of_pairs. cbn [fold_left].
    by rewrite list_insert_id.
  - cbn [for_each].
    erewrite bind_run; [|by apply dict_setitem_run].
    erewrite IH.
    + by rewrite list_insert_insert_eq.
    + apply list_lookup_insert_eq. by eapply lookup_lt_Some.
Qed.

(** The dict [repd_defect_prediction] returns, in closed form. *)
Lemma repd_defect_prediction_run relpath tree random :
  let raw := dict_of_pairs
               (imap (λ i file, (file, random i))
                     (code_files relpath tree)) [] in
  run (repd_defect_prediction relpath tree random) =
  inr (if decide (0 < sum (Dict.values raw))
       then prod_map id (λ v, v / sum (Dict.values raw)) <$> raw
       else raw).
Proof.
  intros raw. unfold run, repd_defect_prediction.
  rewrite gather_repo_files_code_files.
  erewrite bind_run; [|reflexivity].
  erewrite bind_run; [|by apply for_each_setitem_run].
  change (<[length (@nil (dict Qc)) := ?x]> ([] ++ [[]])%list) with [x].
  fold raw.
  erewrite bind_run; [|by apply dict_values_run].
  assert (Dict.wf raw) as Hwf by by apply wf_dict_of_pairs, NoDup_nil_2.
  destruct (decide (0 < sum (Dict.values raw))) as [Hpos|Hnpos]; [|done].
  erewrite bind_run; [|by apply dict_items_run].
  erewrite bind_run; [|reflexivity].
  erewrite bind_run.
  2:{ apply (for_each_run _ 1%nat _ _ []); [|done].
      by apply not_eq_sym, Qclt_not_eq. }
  unfold ret. cbn. by rewrite loop_result_fresh.
Qed.
Lemma get_fmap_values (f : Qc → Qc) (d : dict Qc) k :
  Dict.get (prod_map id f <$> d) k = f <$> Dict.get d k.
Proof.
  induction d as [|[k0 v] d IH]; [done|].
  rewrite fmap_cons. simpl. by case_decide.
Qed.

Lemma keys_fmap_values (f : Qc → Qc) (d : dict Qc) :
  Dict.keys (prod_map id f <$> d) = Dict.keys d.
Proof.
  unfold Dict.keys. rewrite <-list_fmap_compose.
  by apply list_fmap_ext; intros ? [].
Qed.

Lemma values_fmap_values (f : Qc → Qc) (d : dict Qc) :
  Dict.values (prod_map id f <$> d) = f <$> Dict.values d.
Proof.
  unfold Dict.values. rewrite <-!list_fmap_compose.
  by apply list_fmap_ext; intros ? [].
Qed.

Lemma keys_random_pairs random (files : list string) :
  (imap (λ i file, (file, random i)) files).*1 = files.
Proof.
  revert random. induction files as [|f files IH]; intros random; [done|].
  rewrite imap_cons, fmap_cons. simpl. f_equal.
  apply (IH (random ∘ S)).
Qed.

Lemma values_random_pairs random (files : list string) :
  (imap (λ i file, (file, random i)) files).*2 =
  random <$> seq 0 (length files).
Proof.
  rewrite fmap_imap. rewrite <-(imap_seq_0 files random).
  by apply imap_ext.
Qed.

(** X15. [repd_defect_prediction] never raises (the division is guarded
    by the test on the total), and it scores exactly the
    files of the working tree whose name ends in one of the seven code
    suffixes, each under its path relative to the repository, once. *)
Theorem repd_scores_the_code_files relpath tree random :
  ∃ scores,
    run (repd_defect_prediction relpath tree random) = inr scores ∧
    Dict.wf scores ∧
    ∀ path, is_Some (Dict.get scores path) ↔
      ∃ root files file,
        (root, files) ∈ tree ∧ file ∈ files ∧
        endswith_any file code_suffixes = true ∧ path = relpath root file.
Proof.
  rewrite repd_defect_prediction_run.
  set (raw := dict_of_pairs _ []).
  assert (Dict.wf raw) as Hwf by by apply wf_dict_of_pairs, NoDup_nil_2.
  assert (∀ path, is_Some (Dict.get raw path) ↔
                  path ∈ code_files relpath tree) as Hraw.
  { intros path. subst raw.
    rewrite get_dict_of_pairs_is_Some, keys_random_pairs.
    split; [by intros [[? [=]]|?] | by right]. }
  eexists. split; [done|]. case_decide.
  - split.
    + unfold Dict.wf. by rewrite keys_fmap_values.
    + intros path. rewrite get_fmap_values, fmap_is_Some, Hraw.
      apply elem_of_code_files.
  - split; [done|]. intros path. rewrite Hraw. apply elem_of_code_files.
Qed.

Lemma repd_result_nil relpath tree random scores :
  run (repd_defect_prediction relpath tree random) = inr scores →
  (scores = [] ↔ code_files relpath tree = []).
Proof.
  rewrite repd_defect_prediction_run.
  set (raw := dict_of_pairs _ []). intros Hrun.
  assert (scores = [] ↔ raw = []) as ->.
  { injection Hrun as <-. case_decide; [|done].
    split; [by intros ?%fmap_nil_inv | by intros ->]. }
  split.
  - intros Hraw. destruct (code_files relpath tree) as [|f fs] eqn:Hfs;
      [done|].
    assert (is_Some (Dict.get raw f)) as [? Hsome].
    { subst raw. rewrite get_dict_of_pairs_is_Some, keys_random_pairs.
      right. apply list_elem_of_here. }
    by rewrite Hraw in Hsome.
  - intros Hfs. subst raw. by rewrite Hfs.
Qed.

(** X16. The result is the empty dict exactly when the working tree has no
    code file; a total of zero does not make it empty. *)
Theorem repd_empty_iff_no_code_file relpath tree random scores :
  run (repd_defect_prediction relpath tree random) = inr scores →
  (scores = [] ↔
   ∀ root files file,
     (root, files) ∈ tree → file ∈ files →
     endswith_any file code_suffixes = false).
Proof.
  intros ->%repd_result_nil.
  split.
  - intros Hnone root files file Hin Hfile.
    destruct (endswith_any file code_suffixes) eqn:Hcode; [|done].
    assert (relpath root file ∈ code_files relpath tree) as Hpath.
    { apply elem_of_code_files. by exists root, files, file. }
    rewrite Hnone in Hpath. by apply elem_of_nil in Hpath.
  - intros Hall. destruct (code_files relpath tree) as [|f fs] eqn:Hfs;
      [done|].
    assert (f ∈ code_files relpath tree) as Hf
      by (rewrite Hfs; apply list_elem_of_here).
    apply elem_of_code_files in Hf
      as (root & files & file & Hin & Hfile & Hcode & _).
    by rewrite (Hall root files file) in Hcode.
Qed.

Lemma repd_empty_iff_no_code_file_witness :
  let tree : walk := [("/r", ["a.py"; "notes.txt"])] in
  let relpath := λ root file, root +:+ "/" +:+ file in
  ∃ scores,
    run (repd_defect_prediction relpath tree (λ _, 1)) = inr scores ∧
    (scores = [] ↔
     ∀ root files file,
       (root, files) ∈ tree → file ∈ files →
       endswith_any file code_suffixes = false).
Proof.
  intros tree relpath. eexists.
  split; [apply repd_defect_prediction_run|].
  apply (repd_empty_iff_no_code_file relpath tree (λ _, 1)).
  apply repd_defect_prediction_run.
Defined.

Lemma raw_of_distinct_files relpath tree random :
  NoDup (code_files relpath tree) →
  dict_of_pairs (imap (λ i file, (file, random i))
                      (code_files relpath tree)) [] =
  imap (λ i file, (file, random i)) (code_files relpath tree).
Proof.
  intros Hnd. rewrite dict_of_pairs_fresh; [done|].
  unfold Dict.keys. by rewrite fmap_nil, app_nil_l, keys_random_pairs.
Qed.

(** X17. When the paths are distinct, no random number is negative and the
    one drawn for some code file is positive, the result holds the code
    files in the order of the walk, the file number [j] scored from the
    draw number [j]: every score lies between zero and one, a file whose
    draw is zero has the score zero, and a file with a draw at most that of
    another has a score at most that of the other.  The scores here are
    the exact quotients of the draws by their sum; what the function returns
    differs from them by the rounding of the sum and of each division, and
    any numbers that are these quotients up to a relative error [ρ] add up
    to one up to [ρ]. *)
Theorem repd_scores_normalised relpath tree random i scores :
  NoDup (code_files relpath tree) →
  (∀ j, 0 ≤ random j) →
  (i < length (code_files relpath tree))%nat → 0 < random i →
  run (repd_defect_prediction relpath tree random) = inr scores →
  Dict.keys scores = code_files relpath tree ∧
  Forall (λ v, 0 ≤ v ≤ 1) (Dict.values scores) ∧
  (∀ j file, code_files relpath tree !! j = Some file → random j = 0 →
             Dict.get scores file = Some 0) ∧
  (∀ j k fj fk,
     code_files relpath tree !! j = Some fj →
     code_files relpath tree !! k = Some fk →
     random j ≤ random k →
     ∃ sj sk, Dict.get scores fj = Some sj ∧ Dict.get scores fk = Some sk ∧
              sj ≤ sk) ∧
  (∀ ρ rounded,
     Forall2 (within_rel ρ) rounded (Dict.values scores) →
     within_rel ρ (sum rounded) 1).
Proof.
  intros Hnd Hnonneg Hi Hpos. rewrite repd_defect_prediction_run.
  rewrite raw_of_distinct_files by done.
  set (raw := imap _ _). intros Hrun.
  assert (Dict.keys raw = code_files relpath tree) as Hkeys
    by apply keys_random_pairs.
  assert (Dict.values raw =
          random <$> seq 0 (length (code_files relpath tree))) as Hvals
    by apply values_random_pairs.
  assert (Forall (λ v, 0 ≤ v) (Dict.values raw)) as Hnn.
  { rewrite Hvals. apply Forall_fmap, Forall_forall. intros j _. apply Hnonneg. }
  assert (0 < sum (Dict.values raw)) as Htotal.
  { eapply Qclt_le_trans; [exact Hpos|]. apply elem_le_sum; [done|].
    rewrite Hvals. apply list_elem_of_fmap. exists i. split; [done|].
    apply elem_of_seq. lia. }
  assert (sum (Dict.values raw) ≠ 0) as Hnz
    by by apply not_eq_sym, Qclt_not_eq.
  assert (0 < / sum (Dict.values raw)) as Hinv by by apply Qcinv_pos.
  rewrite decide_True in Hrun by done. injection Hrun as <-.
  assert (Dict.wf raw) as Hwf by (unfold Dict.wf; by rewrite Hkeys).
  assert (∀ j file, code_files relpath tree !! j = Some file →
                    Dict.get raw file = Some (random j)) as Hget.
  { intros j file Hj. apply elem_of_get; [done|].
    apply (elem_of_lookup_imap_2 (λ i file, (file, random i)) _ _ j Hj). }
  split_and!.
  - by rewrite keys_fmap_values.
  - rewrite values_fmap_values. apply Forall_fmap, Forall_forall.
    intros v Hv. simpl. apply div_unit_interval; [|by apply elem_le_sum|done].
    by eapply Forall_forall in Hnn.
  - intros j file Hj Hzero. rewrite get_fmap_values, (Hget j file Hj), Hzero.
    simpl. unfold Qcdiv. by rewrite Qcmult_0_l.
  - intros j k fj fk Hj Hk Hle. eexists _, _.
    rewrite !get_fmap_values, (Hget j fj Hj), (Hget k fk Hk).
    split_and!; [done..|]. unfold Qcdiv.
    by apply (proj1 (Qcmult_le_mono_pos_r _ _ _ Hinv)).
  - intros ρ rounded Hrel%sum_within_rel.
    rewrite values_fmap_values, sum_scale in Hrel.
    unfold Qcdiv in Hrel. by rewrite Qcmult_inv_r in Hrel.
Qed.

Lemma repd_scores_normalised_witness :
  let tree : walk := [("/r", ["a.py"; "notes.txt"; "b.c"])] in
  let relpath := λ root file, root +:+ "/" +:+ file in
  let random := λ j : nat, Qc_of_Z (Z.of_nat j) in
  ∃ scores,
    run (repd_defect_prediction relpath tree random) = inr scores ∧
    Dict.keys scores = code_files relpath tree.
Proof.
  intros tree relpath random. eexists.
  split; [apply repd_defect_prediction_run|].
  apply (repd_scores_normalised relpath tree random 1%nat).
  - apply (bool_decide_unpack _). by vm_compute.
  - intros j. rewrite <-Z2Qc_inj_0. apply (proj1 (Z2Qc_inj_le 0 _)). lia.
  - vm_compute. lia.
  - by vm_compute.
  - apply repd_defect_prediction_run.
Defined.

(** X18. When every random number drawn is zero the total is zero and the
    scores are returned as drawn: every code file with the score zero.
    Unlike [calculate_bug_scores], the function does not return an empty
    dict for a zero total; given that result, [calculate_bug_scores] does. *)
Theorem repd_zero_total_keeps_files relpath tree random :
  NoDup (code_files relpath tree) →
  (∀ j, (j < length (code_files relpath tree))%nat → random j = 0) →
  run (repd_defect_prediction relpath tree random) =
    inr ((λ file, (file, 0)) <$> code_files relpath tree) ∧
  call calculate_bug_scores ((λ file, (file, 0)) <$> code_files relpath tree) =
    inr [].
Proof.
  intros Hnd Hzero. rewrite repd_defect_prediction_run.
  rewrite raw_of_distinct_files by done.
  assert (imap (λ i file, (file, random i)) (code_files relpath tree) =
          (λ file, (file, 0)) <$> code_files relpath tree) as ->.
  { rewrite <-imap_const. apply imap_ext. intros j file Hj. simpl.
    rewrite Hzero; [done|]. by eapply lookup_lt_Some. }
  assert (sum (Dict.values ((λ file, (file, 0)) <$> code_files relpath tree))
          = 0) as Hsum.
  { apply sum_all_zero. unfold Dict.values. rewrite <-list_fmap_compose.
    apply Forall_fmap, Forall_forall. by intros. }
  split.
  - rewrite Hsum. by rewrite decide_False by apply (irreflexivity Qclt).
  - by apply call_zero_total.
Qed.

Lemma repd_zero_total_keeps_files_witness :
  let tree : walk := [("/r", ["a.py"; "notes.txt"; "b.c"])] in
  let relpath := λ root file, root +:+ "/" +:+ file in
  run (repd_defect_prediction relpath tree (λ _, 0)) =
    inr [("/r/a.py", 0); ("/r/b.c", 0)].
Proof.
  intros tree relpath.
  apply (repd_zero_total_keeps_files relpath tree (λ _, 0)).
  - apply (bool_decide_unpack _). by vm_compute.
  - done.
Defined.
End repd.

(** ** File names and tools *)

Section tools.
Local Open Scope string_scope.

Lemma list_ascii_of_string_app (a b : string) :
  String.list_ascii_of_string (a +:+ b) =
  (String.list_ascii_of_string a ++ String.list_ascii_of_string b)%list.
Proof.
  induction a as [|c a IH]; [done|].
  change (String c a +:+ b) with (String c (a +:+ b)).
  cbn [String.list_ascii_of_string]. by rewrite IH.
Qed.

Lemma string_of_list_ascii_app (k l : list Ascii.ascii) :
  String.string_of_list_ascii (k ++ l) =
  String.string_of_list_ascii k +:+ String.string_of_list_ascii l.
Proof.
  induction k as [|c k IH]; [done|].
  cbn [app String.string_of_list_ascii]. rewrite IH. done.
Qed.

(** [endswith] is Python's: the string is something followed by the
    suffix. *)
Lemma endswith_spec s suffix :
  endswith s suffix = true ↔ ∃ p, s = p +:+ suffix.
Proof.
  unfold endswith. rewrite bool_decide_eq_true. split.
  - intros [k Hk]. exists (String.string_of_list_ascii k).
    rewrite <-(String.string_of_list_ascii_of_string s), Hk.
    rewrite string_of_list_ascii_app.
    by rewrite String.string_of_list_ascii_of_string.
  - intros [p ->]. exists (String.list_ascii_of_string p).
    apply list_ascii_of_string_app.
Qed.

Lemma endswith_app p suffix : endswith (p +:+ suffix) suffix = true.
Proof. apply endswith_spec. by exists p. Qed.

Lemma endswith_trans s a b :
  endswith s a = true → endswith a b = true → endswith s b = true.
Proof.
  unfold endswith. rewrite !bool_decide_eq_true. intros Hsa Hab.
  by trans (String.list_ascii_of_string a).
Qed.

(** Two suffixes of one name: one of them ends with the other. *)
Lemma endswith_two s a b :
  endswith s a = true → endswith s b = true →
  endswith a b = true ∨ endswith b a = true.
Proof.
  unfold endswith. rewrite !bool_decide_eq_true. intros Ha Hb.
  destruct (suffix_weak_total _ _ _ Ha Hb); auto.
Qed.

Lemma endswith_java_not_c s :
  endswith s ".java" = true →
  endswith s ".cpp" = false ∧ endswith s ".h" = false ∧
  endswith s ".c" = false.
Proof.
  intros Hjava. split_and!.
  - destruct (endswith s ".cpp") eqn:Hsuf; [|done].
    by destruct (endswith_two s ".java" ".cpp" Hjava Hsuf).
  - destruct (endswith s ".h") eqn:Hsuf; [|done].
    by destruct (endswith_two s ".java" ".h" Hjava Hsuf).
  - destruct (endswith s ".c") eqn:Hsuf; [|done].
    by destruct (endswith_two s ".java" ".c" Hjava Hsuf).
Qed.
(** X19. Which tool a file is given to depends on the end of its name alone,
    and the tests of the [if] chain exclude one another: SpotBugs for a name
    that ends in [.java] but not in [module-info.java]; cppcheck for a name
    that ends in [.cpp], [.h] or [.c]; no tool for any other name. *)
Theorem tool_for_spec file :
  (tool_for file = Some ("SpotBugs", "spotbugs") ↔
   endswith file ".java" = true ∧
   endswith file "module-info.java" = false) ∧
  (tool_for file = Some ("cppcheck", "cppcheck") ↔
   endswith file ".cpp" = true ∨ endswith file ".h" = true ∨
   endswith file ".c" = true) ∧
  (tool_for file = None ↔
   (endswith file ".java" = false ∨
    endswith file "module-info.java" = true) ∧
   endswith file ".cpp" = false ∧ endswith file ".h" = false ∧
   endswith file ".c" = false).
Proof.
  unfold tool_for, endswith_any. cbn [existsb].
  destruct (endswith file ".java") eqn:Hjava.
  - apply endswith_java_not_c in Hjava as (-> & -> & ->).
    destruct (endswith file "module-info.java"); simpl;
      split_and!; split; intros; destruct_and?; destruct_or?;
      try done; auto.
  - destruct (endswith file "module-info.java"),
      (endswith file ".cpp"), (endswith file ".h"), (endswith file ".c");
      simpl; split_and!; split; intros; destruct_and?; destruct_or?;
      try done; auto.
Qed.

(** X20. A file whose name ends in [module-info.java] is given to no tool,
    [module-info.java] itself and any longer name alike. *)
Theorem module_info_is_skipped prefix :
  tool_for (prefix +:+ "module-info.java") = None.
Proof.
  assert (endswith (prefix +:+ "module-info.java") ".java" = true) as Hjava.
  { eapply endswith_trans; [apply endswith_app | done]. }
  unfold tool_for, endswith_any. cbn [existsb].
  rewrite endswith_app, andb_false_r.
  by apply endswith_java_not_c in Hjava as (-> & -> & ->).
Qed.

(** X21. Every file given to a tool is also a code file for
    [repd_defect_prediction]; the converse fails: Python, JavaScript and Go
    files are scored there and never analysed, and so is a
    [module-info.java]. *)
Theorem analysed_files_are_code_files :
  (∀ file, is_Some (tool_for file) →
           endswith_any file code_suffixes = true) ∧
  (∀ prefix suffix, suffix ∈ [".py"; ".js"; ".go"; "module-info.java"] →
     endswith_any (prefix +:+ suffix) code_suffixes = true ∧
     tool_for (prefix +:+ suffix) = None).
Proof.
  split.
  - intros file [[name command] Htool].
    unfold endswith_any, code_suffixes. cbn [existsb].
    unfold tool_for, endswith_any in Htool. cbn [existsb] in Htool.
    destruct (endswith file ".java"), (endswith file ".cpp"),
      (endswith file ".h"), (endswith file ".c");
      simpl in *; try done; by rewrite ?orb_true_r.
  - intros prefix suffix Hsuffix.
    assert (∀ s, endswith (prefix +:+ suffix) s = true →
                 endswith suffix s = false → endswith s suffix = false →
                 False) as Hexcl.
    { intros s Hs H1 H2.
      destruct (endswith_two _ _ _ (endswith_app prefix suffix) Hs);
        congruence. }
    split.
    + unfold endswith_any, code_suffixes. cbn [existsb].
      repeat (apply elem_of_cons in Hsuffix as [->|Hsuffix]);
        [..|by apply elem_of_nil in Hsuffix].
      * by rewrite endswith_app.
      * by rewrite endswith_app, !orb_true_r.
      * by rewrite endswith_app, !orb_true_r.
      * rewrite (endswith_trans _ "module-info.java" ".java");
          [by rewrite !orb_true_r | apply endswith_app | done].
    + assert (∀ s, endswith suffix s = false → endswith s suffix = false →
                   endswith (prefix +:+ suffix) s = false) as Hnot.
      { intros s H1 H2.
        destruct (endswith (prefix +:+ suffix) s) eqn:Hs; [|done].
        by destruct (Hexcl s Hs). }
      unfold tool_for, endswith_any. cbn [existsb].
      repeat (apply elem_of_cons in Hsuffix as [->|Hsuffix]);
        [..|by apply elem_of_nil in Hsuffix].
      1-3: by rewrite (Hnot ".java"), (Hnot ".cpp"), (Hnot ".h"),
                      (Hnot ".c").
      assert (endswith (prefix +:+ "module-info.java") ".java" = true)
        as Hjava.
      { eapply endswith_trans; [apply endswith_app | done]. }
      rewrite endswith_app, andb_false_r.
      by apply endswith_java_not_c in Hjava as (-> & -> & ->).
Qed.
End tools.

(** ** Static analysis and the main function *)

Section effects.
Import DictFacts.
Local Open Scope string_scope.
Implicit Types (evs out : list event) (tree : walk).
Implicit Types (join relpath : string → string → string).
Implicit Types (subprocess_run : nat → list string → outcome).

Lemma processes_started_app evs1 evs2 :
  processes_started (evs1 ++ evs2) =
  (processes_started evs1 ++ processes_started evs2)%list.
Proof. apply omap_app. Qed.


Lemma report_lines_app evs1 evs2 :
  report_lines (evs1 ++ evs2) = (report_lines evs1 ++ report_lines evs2)%list.
Proof. apply omap_app. Qed.

Lemma tool_events_no_clone_no_line evs :
  Forall tool_event evs → clones evs = [] ∧ report_lines evs = [].
Proof.
  induction 1 as [|e evs He _ [IH1 IH2]]; [done|].
  unfold clones, report_lines in *. by destruct e.
Qed.

Lemma run_tool_events name command file_path result :
  Forall tool_event (run_tool name command file_path result) ∧
  processes_started (run_tool name command file_path result) =
  [[command; file_path]].
Proof.
  unfold run_tool. destruct result as [e|returncode stdout stderr].
  - split; [by repeat constructor | done].
  - repeat case_decide; (split; [by repeat constructor | done]).
Qed.

Lemma analyse_file_events join subprocess_run root file n :
  Forall tool_event (analyse_file join subprocess_run root file n).1 ∧
  processes_started (analyse_file join subprocess_run root file n).1 =
  option_list ((λ t : string * string, [t.2; join root file])
                 <$> tool_for file).
Proof.
  unfold analyse_file. destruct (tool_for file) as [[name command]|]; simpl.
  - apply run_tool_events.
  - by split.
Qed.

Lemma analyse_files_events join subprocess_run root files out n :
  Forall tool_event out →
  let res := fold_left (λ '(out, n) file,
       let '(evs, n') := analyse_file join subprocess_run root file n in
       ((out ++ evs)%list, n')) files (out, n) in
  Forall tool_event res.1 ∧
  processes_started res.1 =
  (processes_started out ++
   omap (λ file, (λ t : string * string, [t.2; join root file])
                   <$> tool_for file) files)%list.
Proof.
  revert out n. induction files as [|file files IH]; intros out n Hout.
  - cbn [fold_left]. split; [done|]. by rewrite app_nil_r.
  - cbn [fold_left].
    destruct (analyse_file_events join subprocess_run root file n)
      as [Hev Hproc].
    destruct (analyse_file join subprocess_run root file n) as [evs n'].
    simpl in Hev, Hproc.
    destruct (IH (out ++ evs)%list n') as [IH1 IH2];
      [by apply Forall_app|].
    split; [done|]. rewrite IH2, processes_started_app, Hproc.
    rewrite <-app_assoc. f_equal.
    cbn [omap list_omap]. by destruct (tool_for file).
Qed.

Lemma analyse_tree_events join subprocess_run tree out n :
  Forall tool_event out →
  let res := fold_left (λ '(out, n) '(root, files),
     fold_left (λ '(out, n) file,
       let '(evs, n') := analyse_file join subprocess_run root file n in
       ((out ++ evs)%list, n')) files (out, n)) tree (out, n) in
  Forall tool_event res.1 ∧
  processes_started res.1 =
  (processes_started out ++ commands_for join tree)%list.
Proof.
  unfold commands_for. revert out n.
  induction tree as [|[root files] tree IH]; intros out n Hout.
  - cbn [fold_left]. split; [done|]. by rewrite app_nil_r.
  - cbn [fold_left].
    destruct (analyse_files_events join subprocess_run root files out n Hout)
      as [Hev Hproc].
    destruct (fold_left _ files (out, n)) as [out' n'].
    simpl in Hev, Hproc.
    destruct (IH out' n' Hev) as [IH1 IH2].
    split; [done|]. by rewrite IH2, Hproc, bind_cons, app_assoc.
Qed.

Lemma run_static_analysis_events join tree subprocess_run :
  Forall tool_event (run_static_analysis join tree subprocess_run) ∧
  processes_started (run_static_analysis join tree subprocess_run) =
  commands_for join tree.
Proof.
  unfold run_static_analysis.
  destruct (analyse_tree_events join subprocess_run tree [] 0%nat)
    as [Hev Hproc]; [constructor|].
  split; [by constructor|]. done.
Qed.

Lemma report_lines_PrintLine (ls : list output_line) :
  report_lines (PrintLine <$> ls) = ls ∧
  clones (PrintLine <$> ls) = [] ∧
  processes_started (PrintLine <$> ls) = [].
Proof.
  unfold report_lines, clones, processes_started.
  induction ls as [|l ls (IH1 & IH2 & IH3)]; [done|].
  rewrite fmap_cons. cbn [omap list_omap]. by rewrite IH1, IH2, IH3.
Qed.

(** What [main] does, in closed form: nothing in it raises. *)
Lemma main_run path_exists commits relpath join tree random subprocess_run :
  ∃ bug_scores repd_scores,
    call calculate_bug_scores
         (as_numbers (extract_file_change_history commits)) = inr bug_scores ∧
    run (repd_defect_prediction relpath tree random) = inr repd_scores ∧
    main path_exists commits relpath join tree random subprocess_run =
    ((clone_repository path_exists
        "https://github.com/eclipse-openj9/openj9" "./openj9_repo" ++
      [Print (newline +:+
         "=== Running BugCache/FixCache defect prediction (Approach 1) ===")]
      ++ (PrintLine <$> generate_report_default bug_scores) ++
      [Print (newline +:+
         "=== Running REPD defect prediction (Approach 2) ===");
       Print "Running REPD defect prediction model..."] ++
      (if decide (repd_scores ≠ [])
       then PrintLine <$> generate_report_default repd_scores
       else [Print "REPD model not implemented yet."]) ++
      run_static_analysis join tree subprocess_run)%list, None).
Proof.
  set (d := extract_file_change_history commits).
  assert (Dict.wf (as_numbers d)) as Hwf.
  { unfold Dict.wf. rewrite keys_as_numbers.
    apply pass_state_inv, pass_state_extract. }
  eexists _, _. split; [by apply call_calculate_bug_scores|].
  split; [apply repd_defect_prediction_run|].
  unfold main. fold d.
  rewrite call_calculate_bug_scores, repd_defect_prediction_run by done.
  cbv zeta. by rewrite <-!app_assoc.
Qed.


(** X24. [main] prints the report of the change counts, and after it a report
    of the REPD scores exactly when the working tree has a code file; when
    it has none it prints that the REPD model is not implemented. *)
Theorem main_reports
    path_exists commits relpath join tree random subprocess_run :
  let out :=
    (main path_exists commits relpath join tree random subprocess_run).1 in
  ∃ bug_scores repd_scores,
    call calculate_bug_scores
         (as_numbers (extract_file_change_history commits)) = inr bug_scores ∧
    run (repd_defect_prediction relpath tree random) = inr repd_scores ∧
    report_lines out =
      (generate_report_default bug_scores ++
       (if decide (code_files relpath tree = []) then []
        else generate_report_default repd_scores))%list ∧
    (code_files relpath tree = [] →
     Print "REPD model not implemented yet." ∈ out).
Proof.
  destruct (main_run path_exists commits relpath join tree random
              subprocess_run)
    as (bug_scores & repd_scores & Hcall & Hrun & ->).
  exists bug_scores, repd_scores. split; [done|]. split; [done|].
  pose proof (repd_result_nil _ _ _ _ Hrun) as Hnil.
  destruct (run_static_analysis_events join tree subprocess_run)
    as [[Hc Hl]%tool_events_no_clone_no_line Hp].
  cbn [fst]. split.
  - rewrite !report_lines_app, Hl, app_nil_r.
    destruct (report_lines_PrintLine (generate_report_default bug_scores))
      as (-> & _ & _).
    assert (report_lines
              (clone_repository path_exists
                 "https://github.com/eclipse-openj9/openj9" "./openj9_repo")
            = []) as ->.
    { unfold clone_repository. by destruct (path_exists "./openj9_repo"). }
    cbn [app report_lines omap list_omap]. f_equal.
    destruct (decide (repd_scores ≠ [])) as [Hne|He].
    + rewrite decide_False by (by rewrite <-Hnil).
      apply report_lines_PrintLine.
    + apply dec_stable in He. by rewrite decide_True by by apply Hnil.
  - intros Hnone. rewrite decide_False.
    2:{ intros Hne. apply Hne. by apply Hnil. }
    rewrite !elem_of_app. do 4 right. left. apply list_elem_of_here.
Qed.
End effects.

(** ** Normalising a normalised map, with rounding *)

Section rounding.
Import DictFacts.
Local Open Scope string_scope.
Local Open Scope Qc_scope.
Implicit Types (h : heap) (raw x : dict Qc).
Implicit Types (fsum : list Qc → Qc) (fdiv : Qc → Qc → Qc).

(** With the exact operations the function is [calculate_bug_scores]. *)
Lemma calculate_bug_scores_with_exact :
  calculate_bug_scores_with sum Qcdiv = calculate_bug_scores.
Proof. reflexivity. Qed.

Lemma for_each_with_run fdiv t out (its : list (string * Qc)) h acc :
  t ≠ 0 → h !! out = Some acc →
  for_each its (λ '(file, changes),
    q <- truediv_with fdiv changes t ;; dict_setitem out file q) h =
  (inr (), <[out := dict_of_pairs (prod_map id (λ v, fdiv v t) <$> its) acc]> h).
Proof.
  intros Ht. revert h acc.
  induction its as [|[k v] its IH]; intros h acc Hout.
  - cbn [for_each]. unfold ret, dict_of_pairs. rewrite fmap_nil.
    cbn [fold_left]. by rewrite list_insert_id.
  - cbn [for_each].
    erewrite bind_run.
    2:{ erewrite bind_run.
        - by apply dict_setitem_run.
        - unfold truediv_with. by rewrite decide_False. }
    erewrite IH.
    + by rewrite list_insert_insert_eq.
    + apply list_lookup_insert_eq. by eapply lookup_lt_Some.
Qed.

Lemma calculate_bug_scores_with_run fsum fdiv h fcc raw :
  h !! fcc = Some raw → Dict.wf raw →
  calculate_bug_scores_with fsum fdiv fcc h =
  (inr (length h), (h ++ [scores_with fsum fdiv raw])%list).
Proof.
  intros Hfcc Hwf. unfold calculate_bug_scores_with, scores_with.
  erewrite bind_run; [|by apply dict_values_run].
  erewrite bind_run; [|reflexivity].
  destruct (decide (fsum (Dict.values raw) = 0)) as [Hz|Hnz]; [done|].
  assert ((h ++ [[]])%list !! fcc = Some raw) as Hfcc'.
  { rewrite lookup_app_l; [done | by eapply lookup_lt_Some]. }
  erewrite bind_run; [|by apply dict_items_run].
  erewrite bind_run; [|by apply for_each_with_run, list_lookup_middle].
  unfold ret. f_equal.
  replace (length h) with (length h + 0)%nat at 1 by lia.
  rewrite insert_app_r. cbn [insert list_insert]. do 2 f_equal.
  unfold Dict.items. rewrite dict_of_pairs_fresh; [done|].
  unfold Dict.keys. rewrite fmap_nil, app_nil_l, <-list_fmap_compose.
  erewrite list_fmap_ext; [exact Hwf|]. by intros ? [].
Qed.

Lemma call_calculate_bug_scores_with fsum fdiv raw :
  Dict.wf raw →
  call (calculate_bug_scores_with fsum fdiv) raw =
  inr (scores_with fsum fdiv raw).
Proof.
  intros Hwf. unfold call.
  by rewrite (calculate_bug_scores_with_run fsum fdiv [raw] 0%nat raw).
Qed.

Lemma Qcle_0_minus a b : a ≤ b → 0 ≤ b - a.
Proof. apply (proj1 (Qcle_minus_iff a b)). Qed.

Lemma Qcle_of_0_minus a b : 0 ≤ b - a → a ≤ b.
Proof. apply (proj2 (Qcle_minus_iff a b)). Qed.

Lemma Qc_0_le_1 : 0 ≤ 1.
Proof. by vm_compute. Qed.

(** Sums and products of numbers known not to be negative. *)
Ltac nonneg :=
  repeat first
    [ assumption
    | exact Qc_0_le_1
    | apply Qcplus_nonneg_nonneg
    | apply Qcmult_nonneg_nonneg ].

(** *** The accuracy of the binary64 operations *)

Lemma Z2Qc_pos z : (0 < z)%Z → 0 < Qc_of_Z z.
Proof. intros H. unfold Qclt. simpl. unfold Qlt. simpl. lia. Qed.

Lemma pow2_pos k : 0 < pow2 k.
Proof.
  unfold pow2. destruct (decide (0 ≤ k)%Z).
  - apply Z2Qc_pos. by apply Z.pow_pos_nonneg.
  - apply Qcinv_pos, Z2Qc_pos. apply Z.pow_pos_nonneg; lia.
Qed.

Lemma pow2_nonneg_add a b : (0 ≤ a)%Z → (0 ≤ b)%Z → pow2 (a + b) = pow2 a * pow2 b.
Proof.
  intros Ha Hb. unfold pow2. rewrite !decide_True by lia.
  by rewrite Z.pow_add_r, Z2Qc_inj_mul by done.
Qed.

Lemma pow2_opp a : pow2 (- a) = / pow2 a.
Proof.
  unfold pow2. destruct (decide (0 ≤ a)%Z), (decide (0 ≤ - a)%Z).
  - assert (a = 0%Z) as -> by lia. apply Qc_is_canon. by vm_compute.
  - by rewrite Z.opp_involutive.
  - field. split; [|done].
    apply not_eq_sym, Qclt_not_eq, Z2Qc_pos. apply Z.pow_pos_nonneg; lia.
  - lia.
Qed.

Lemma pow2_ne k : pow2 k ≠ 0.
Proof. apply not_eq_sym, Qclt_not_eq, pow2_pos. Qed.

Lemma pow2_add a b : pow2 (a + b) = pow2 a * pow2 b.
Proof.
  assert (∀ a b, (0 ≤ a)%Z → (0 ≤ b)%Z → pow2 (a - b) = pow2 a * / pow2 b) as Hsub.
  { intros x y Hx Hy. destruct (decide (y ≤ x)%Z).
    - assert (pow2 x = pow2 (x - y) * pow2 y) as ->.
      { rewrite <-pow2_nonneg_add by lia. f_equal. lia. }
      field. apply pow2_ne.
    - replace (x - y)%Z with (- (y - x))%Z by lia. rewrite pow2_opp.
      assert (pow2 y = pow2 (y - x) * pow2 x) as ->.
      { rewrite <-pow2_nonneg_add by lia. f_equal. lia. }
      field. split; apply pow2_ne. }
  destruct (decide (0 ≤ a)%Z), (decide (0 ≤ b)%Z).
  - by apply pow2_nonneg_add.
  - replace (a + b)%Z with (a - (- b))%Z by lia. rewrite Hsub by lia.
    by rewrite <-pow2_opp, Z.opp_involutive.
  - replace (a + b)%Z with (b - (- a))%Z by lia. rewrite Hsub by lia.
    rewrite <-pow2_opp, Z.opp_involutive. ring.
  - replace (a + b)%Z with (- ((- a) + (- b)))%Z by lia.
    rewrite pow2_opp, pow2_nonneg_add by lia.
    rewrite <-(Z.opp_involutive a) at 2. rewrite <-(Z.opp_involutive b) at 2.
    rewrite (pow2_opp (- a)), (pow2_opp (- b)). field. split; apply pow2_ne.
Qed.


Lemma round_half_even_close (q : Qc) :
  Qc_of_Z (round_half_even q) - Q2Qc (1 # 2) ≤ q ∧
  q ≤ Qc_of_Z (round_half_even q) + Q2Qc (1 # 2).
Proof.
  destruct q as [[n d] Hc]. unfold round_half_even. cbn [Qcanon.this Qnum Qden].
  pose proof (Z.div_mod n (Z.pos d) ltac:(lia)) as Hdm.
  pose proof (Z.mod_pos_bound n (Z.pos d) ltac:(lia)) as Hm.
  set (f := (n / Z.pos d)%Z) in *. set (m := (n mod Z.pos d)%Z) in *.
  assert (∀ R : Z, (2 * (R * Z.pos d) - Z.pos d ≤ 2 * n)%Z →
                   (2 * n ≤ 2 * (R * Z.pos d) + Z.pos d)%Z →
     Qc_of_Z R - Q2Qc (1 # 2) ≤ Qcmake (n # d) Hc ∧
     Qcmake (n # d) Hc ≤ Qc_of_Z R + Q2Qc (1 # 2)) as Hgen.
  { intros R H1 H2. unfold Qcle, Qcminus, Qcplus, Qcopp, Qc_of_Z.
    cbn [Qcanon.this Q2Qc]. rewrite !Qred_correct.
    unfold Qle. cbn. lia. }
  destruct (Z.compare_spec (2 * m) (Z.pos d)) as [Heq|Hlt|Hgt].
  - destruct (Z.even f); apply Hgen; lia.
  - apply Hgen; lia.
  - apply Hgen; lia.
Qed.

Lemma Qc_as_quotient (q : Qc) :
  q = Qc_of_Z (Qnum q) / Qc_of_Z (Z.pos (Qden q)).
Proof.
  destruct q as [[n d] Hc]. apply Qc_is_canon.
  unfold Qcdiv, Qcmult, Qcinv, Qc_of_Z. cbn [Qcanon.this Q2Qc Qnum Qden].
  rewrite !Qred_correct. unfold Qeq, Qmult, Qinv. cbn. lia.
Qed.

Lemma Qnum_pos (q : Qc) : 0 < q → (0 < Qnum q)%Z.
Proof. destruct q as [[n d] Hc]. unfold Qclt, Qlt.
  change (Qcanon.this 0) with 0%Q. cbn. lia. Qed.

(** The exponent [round_binary64] finds is at most that of the number. *)
Lemma exponent_below (a : Qc) :
  0 < a →
  pow2 (Z.log2 (Qnum a) - Z.log2 (Z.pos (Qden a)) - 1) ≤ a.
Proof.
  intros Ha. pose proof (Qnum_pos a Ha) as Hn.
  set (n := Qnum a) in *. set (d := Z.pos (Qden a)).
  assert (0 < d)%Z as Hd by (unfold d; lia).
  destruct (Z.log2_spec n Hn) as [Hn1 _].
  destruct (Z.log2_spec d Hd) as [_ Hd2].
  pose proof (Z.log2_nonneg n) as Hln. pose proof (Z.log2_nonneg d) as Hld.
  replace (Z.log2 n - Z.log2 d - 1)%Z
    with (Z.log2 n + - Z.succ (Z.log2 d))%Z by lia.
  rewrite pow2_add, pow2_opp, (Qc_as_quotient a). fold n d.
  unfold pow2 at 1 2. rewrite !decide_True by lia.
  set (P := (2 ^ Z.log2 n)%Z) in *. set (D := (2 ^ Z.succ (Z.log2 d))%Z) in *.
  assert (0 < Qc_of_Z d) as HdQ by by apply Z2Qc_pos.
  assert (0 < Qc_of_Z D) as HDQ by (apply Z2Qc_pos; lia).
  assert (0 < Qc_of_Z d * Qc_of_Z D) as Hc by by apply Qcmult_pos_pos.
  apply (proj2 (Qcmult_le_mono_pos_r _ _ _ Hc)).
  replace (Qc_of_Z P * / Qc_of_Z D * (Qc_of_Z d * Qc_of_Z D))
    with (Qc_of_Z P * Qc_of_Z d)
    by (field; by apply not_eq_sym, Qclt_not_eq).
  replace (Qc_of_Z n / Qc_of_Z d * (Qc_of_Z d * Qc_of_Z D))
    with (Qc_of_Z n * Qc_of_Z D)
    by (field; by apply not_eq_sym, Qclt_not_eq).
  rewrite <-!Z2Qc_inj_mul. apply (proj1 (Z2Qc_inj_le _ _)). nia.
Qed.

Lemma round_binary64_pos q :
  0 < q →
  round_binary64 q =
  Qc_of_Z (round_half_even (q * pow2 (52 - exponent_of q)))
  * pow2 (exponent_of q - 52).
Proof.
  intros Hq. unfold round_binary64, exponent_of.
  rewrite decide_False by by apply not_eq_sym, Qclt_not_eq.
  by rewrite !decide_True by done.
Qed.

(** Rounding moves a number by at most half a unit in the last place. *)
Lemma round_binary64_half_ulp q :
  0 < q →
  q - pow2 (exponent_of q - 53) ≤ round_binary64 q ∧
  round_binary64 q ≤ q + pow2 (exponent_of q - 53).
Proof.
  intros Hq. rewrite round_binary64_pos by done.
  set (e := exponent_of q).
  destruct (round_half_even_close (q * pow2 (52 - e))) as [H1 H2].
  set (R := Qc_of_Z _) in *.
  pose proof (pow2_pos (e - 52)) as Hp.
  assert (pow2 (52 - e) = / pow2 (e - 52)) as Hinv.
  { rewrite <-pow2_opp. f_equal. lia. }
  assert (pow2 (e - 53) = Q2Qc (1 # 2) * pow2 (e - 52)) as ->.
  { replace (e - 53)%Z with (-1 + (e - 52))%Z by lia. rewrite pow2_add.
    f_equal; apply Qc_is_canon; by vm_compute. }
  rewrite Hinv in H1, H2.
  apply (proj1 (Qcmult_le_mono_pos_r _ _ _ Hp)) in H1, H2.
  replace (q * / pow2 (e - 52) * pow2 (e - 52)) with q in H1, H2
    by (field; by apply not_eq_sym, Qclt_not_eq).
  apply Qcle_0_minus in H1, H2.
  split; apply Qcle_of_0_minus.
  - replace (R * pow2 (e - 52) - (q - Q2Qc (1 # 2) * pow2 (e - 52)))
      with ((R + Q2Qc (1 # 2)) * pow2 (e - 52) - q) by ring. done.
  - replace (q + Q2Qc (1 # 2) * pow2 (e - 52) - R * pow2 (e - 52))
      with (q - (R - Q2Qc (1 # 2)) * pow2 (e - 52)) by ring. done.
Qed.

Lemma exponent_of_below q :
  0 < q → (-1022 < exponent_of q)%Z → pow2 (exponent_of q) ≤ q.
Proof.
  intros Hq. unfold exponent_of.
  set (e0 := (Z.log2 (Qnum q) - Z.log2 (Z.pos (Qden q)))%Z).
  destruct (decide (q < pow2 e0)) as [Hlt|Hge]; intros He.
  - rewrite Z.max_l by lia. by apply exponent_below.
  - rewrite Z.max_l by lia. by apply Qcnot_lt_le.
Qed.

Lemma exponent_of_min q : (-1022 ≤ exponent_of q)%Z.
Proof. unfold exponent_of. lia. Qed.

(** The accuracy of rounding: the relative error is at most the unit
    roundoff, except that below the normal range the error is at most
    [2^-1075]. *)
Lemma round_binary64_close q :
  0 ≤ q → close_to unit_roundoff (pow2 (-1075)) (round_binary64 q) q.
Proof.
  intros Hq0. destruct (decide (q = 0)) as [->|Hne].
  { unfold round_binary64. rewrite decide_True by done.
    split; by vm_compute. }
  assert (0 < q) as Hq.
  { apply Qcle_lt_or_eq in Hq0 as [?|?]; [done | by subst]. }
  destruct (round_binary64_half_ulp q Hq) as [H1 H2].
  pose proof (exponent_of_min q) as Hmin.
  assert (pow2 (exponent_of q - 53) ≤ q * unit_roundoff + pow2 (-1075)) as Hulp.
  { destruct (decide (exponent_of q = -1022)%Z) as [->|He].
    - rewrite <-(Qcplus_0_l (pow2 (-1022 - 53))).
      apply Qcplus_le_compat; [|done].
      apply Qcmult_nonneg_nonneg; [done | by vm_compute].
    - rewrite <-(Qcplus_0_r (pow2 _)).
      apply Qcplus_le_compat; [|by vm_compute].
      replace (exponent_of q - 53)%Z with (exponent_of q + -53)%Z by lia.
      rewrite pow2_add.
      assert (pow2 (-53) = unit_roundoff) as ->
        by (apply Qc_is_canon; by vm_compute).
      apply Qcmult_le_mono_nonneg_r; [by vm_compute|].
      apply exponent_of_below; [done | lia]. }
  apply Qcle_0_minus in H1, H2, Hulp.
  split; apply Qcle_of_0_minus.
  - replace (round_binary64 q - (q * (1 - unit_roundoff) - pow2 (-1075)))
      with ((round_binary64 q - (q - pow2 (exponent_of q - 53)))
            + (q * unit_roundoff + pow2 (-1075) - pow2 (exponent_of q - 53)))
      by ring.
    by apply Qcplus_nonneg_nonneg.
  - replace (q * (1 + unit_roundoff) + pow2 (-1075) - round_binary64 q)
      with ((q + pow2 (exponent_of q - 53) - round_binary64 q)
            + (q * unit_roundoff + pow2 (-1075) - pow2 (exponent_of q - 53)))
      by ring.
    by apply Qcplus_nonneg_nonneg.
Qed.

Lemma round_binary64_0 : round_binary64 0 = 0.
Proof. unfold round_binary64. by rewrite decide_True. Qed.

Lemma pow2_Z k : (0 ≤ k)%Z → pow2 k = Qc_of_Z (2 ^ k).
Proof. intros Hk. unfold pow2. by rewrite decide_True. Qed.

Lemma round_binary64_on_grid q : 0 ≤ q → on_grid (round_binary64 q).
Proof.
  intros Hq0. destruct (decide (q = 0)) as [->|Hne].
  { exists 0%Z. by rewrite round_binary64_0, Z2Qc_inj_0, Qcmult_0_l. }
  assert (0 < q) as Hq.
  { apply Qcle_lt_or_eq in Hq0 as [?|?]; [done | by subst]. }
  rewrite round_binary64_pos by done.
  pose proof (exponent_of_min q) as Hmin. set (e := exponent_of q) in *.
  exists (round_half_even (q * pow2 (52 - e)) * 2 ^ (e + 1022))%Z.
  replace (e - 52)%Z with ((e + 1022) + -1074)%Z by lia.
  rewrite (pow2_add (e + 1022)), (pow2_Z (e + 1022)), Z2Qc_inj_mul by lia. ring.
Qed.

Lemma is_binary64_on_grid q : 0 ≤ q → is_binary64 q → on_grid q.
Proof. intros Hq <-. by apply round_binary64_on_grid. Qed.

Lemma on_grid_plus a b : on_grid a → on_grid b → on_grid (a + b).
Proof.
  intros [k ->] [l ->]. exists (k + l)%Z. rewrite Z2Qc_inj_add. ring.
Qed.

Lemma round_half_even_Z k : round_half_even (Qc_of_Z k) = k.
Proof.
  unfold round_half_even, Qc_of_Z. cbn [Qcanon.this inject_Z Qnum Qden].
  rewrite Z.mod_1_r, Z.div_1_r. done.
Qed.

(** At the smallest exponent the floats are the multiples of [2^-1074]:
    rounding such a number changes nothing. *)
Lemma round_binary64_exact q :
  0 < q → on_grid q → exponent_of q = (-1022)%Z → round_binary64 q = q.
Proof.
  intros Hq [k ->] He. rewrite round_binary64_pos, He by done.
  change (52 - -1022)%Z with 1074%Z. change (-1022 - 52)%Z with (-1074)%Z.
  assert (pow2 (-1074) * pow2 1074 = 1) as Hone.
  { rewrite <-pow2_add. apply Qc_is_canon. by vm_compute. }
  replace (Qc_of_Z k * pow2 (-1074) * pow2 1074) with (Qc_of_Z k)
    by (rewrite <-Qcmult_assoc, Hone; ring).
  by rewrite round_half_even_Z.
Qed.

Lemma unit_roundoff_nonneg : 0 ≤ unit_roundoff.
Proof. by vm_compute. Qed.

(** Rounding a multiple of [2^-1074] has a relative error only. *)
Lemma round_binary64_within q :
  0 ≤ q → on_grid q → within_rel unit_roundoff (round_binary64 q) q.
Proof.
  intros Hq0 Hgrid. pose proof unit_roundoff_nonneg as Hu.
  assert (within_rel unit_roundoff q q) as Hrefl.
  { split; apply Qcle_of_0_minus.
    - replace (q - q * (1 - unit_roundoff)) with (q * unit_roundoff) by ring.
      by apply Qcmult_nonneg_nonneg.
    - replace (q * (1 + unit_roundoff) - q) with (q * unit_roundoff) by ring.
      by apply Qcmult_nonneg_nonneg. }
  destruct (decide (q = 0)) as [->|Hne]; [by rewrite round_binary64_0|].
  assert (0 < q) as Hq.
  { apply Qcle_lt_or_eq in Hq0 as [?|?]; [done | by subst]. }
  destruct (decide (exponent_of q = -1022)%Z) as [He|He].
  { by rewrite round_binary64_exact. }
  destruct (round_binary64_half_ulp q Hq) as [H1 H2].
  pose proof (exponent_of_min q) as Hmin.
  assert (pow2 (exponent_of q - 53) ≤ q * unit_roundoff) as Hulp.
  { replace (exponent_of q - 53)%Z with (exponent_of q + -53)%Z by lia.
    rewrite pow2_add.
    assert (pow2 (-53) = unit_roundoff) as ->
      by (apply Qc_is_canon; by vm_compute).
    apply Qcmult_le_mono_nonneg_r; [done|].
    apply exponent_of_below; [done | lia]. }
  apply Qcle_0_minus in H1, H2, Hulp.
  split; apply Qcle_of_0_minus.
  - replace (round_binary64 q - q * (1 - unit_roundoff))
      with ((round_binary64 q - (q - pow2 (exponent_of q - 53)))
            + (q * unit_roundoff - pow2 (exponent_of q - 53))) by ring.
    by apply Qcplus_nonneg_nonneg.
  - replace (q * (1 + unit_roundoff) - round_binary64 q)
      with ((q + pow2 (exponent_of q - 53) - round_binary64 q)
            + (q * unit_roundoff - pow2 (exponent_of q - 53))) by ring.
    by apply Qcplus_nonneg_nonneg.
Qed.

Lemma round_binary64_nonneg q : 0 ≤ q → 0 ≤ round_binary64 q.
Proof.
  intros Hq0. destruct (decide (q = 0)) as [->|Hne];
    [by rewrite round_binary64_0|].
  assert (0 < q) as Hq.
  { apply Qcle_lt_or_eq in Hq0 as [?|?]; [done | by subst]. }
  rewrite round_binary64_pos by done.
  apply Qcmult_nonneg_nonneg; [|apply Qclt_le_weak, pow2_pos].
  rewrite <-Z2Qc_inj_0. apply (proj1 (Z2Qc_inj_le _ _)).
  assert (0 ≤ q * pow2 (52 - exponent_of q)) as Hm.
  { apply Qcmult_nonneg_nonneg; [done | apply Qclt_le_weak, pow2_pos]. }
  revert Hm. generalize (q * pow2 (52 - exponent_of q)).
  intros [[n d] Hc]. unfold round_half_even, Qcle, Qle.
  change (Qcanon.this 0) with 0%Q. cbn. intros Hn.
  pose proof (Z.div_pos n (Z.pos d) ltac:(lia) ltac:(lia)).
  destruct (Z.compare _ _); [destruct (Z.even _)| |]; lia.
Qed.

Lemma sum_error_nonneg u n : 0 ≤ u → 0 ≤ sum_error u n.
Proof.
  intros Hu. induction n as [|n IH]; [done|]. cbn [sum_error].
  repeat apply Qcplus_nonneg_nonneg; try done.
  by apply Qcmult_nonneg_nonneg.
Qed.

(** One more number added to a rounded sum. *)
Lemma add_within u ε s S a r :
  0 ≤ u → u ≤ 1 → 0 ≤ ε → 0 ≤ S → 0 ≤ a →
  within_rel ε s S → within_rel u r (s + a) →
  within_rel (ε + u + ε * u) r (S + a).
Proof.
  intros Hu Hu1%Qcle_0_minus Hε HS Ha
    [Hlo%Qcle_0_minus Hhi%Qcle_0_minus] [Hr1%Qcle_0_minus Hr2%Qcle_0_minus].
  assert (0 ≤ 1 + u) as Hu2
    by (apply Qcplus_nonneg_nonneg; [by vm_compute | done]).
  split; apply Qcle_of_0_minus.
  - replace (r - (S + a) * (1 - (ε + u + ε * u)))
      with ((r - (s + a) * (1 - u))
            + (1 - u) * (s - S * (1 - ε))
            + a * ε * (1 - u)
            + (S + a) * (ε * u + ε * u)) by ring.
    nonneg.
  - replace ((S + a) * (1 + (ε + u + ε * u)) - r)
      with (((s + a) * (1 + u) - r)
            + (1 + u) * (S * (1 + ε) - s)
            + a * ε * (1 + u)) by ring.
    nonneg.
Qed.

Lemma binary64_sum_from xs : ∀ s t n,
  Forall (λ v, 0 ≤ v ∧ is_binary64 v) xs →
  0 ≤ s → on_grid s → 0 ≤ t → within_rel (sum_error unit_roundoff n) s t →
  within_rel (sum_error unit_roundoff (n + length xs))
    (fold_left (λ s a, round_binary64 (s + a)) xs s) (t + sum xs).
Proof.
  induction xs as [|x xs IH]; intros s t n Hxs Hs Hgs Ht Hrel.
  - cbn [fold_left length]. by rewrite sum_nil, Nat.add_0_r, Qcplus_0_r.
  - apply Forall_cons in Hxs as [[Hx Hfx] Hxs].
    cbn [fold_left length]. rewrite sum_cons.
    replace (n + S (length xs))%nat with (S n + length xs)%nat by lia.
    rewrite Qcplus_assoc. apply IH; [done|..].
    + by apply round_binary64_nonneg, Qcplus_nonneg_nonneg.
    + by apply round_binary64_on_grid, Qcplus_nonneg_nonneg.
    + by apply Qcplus_nonneg_nonneg.
    + cbn [sum_error].
      apply (add_within unit_roundoff (sum_error unit_roundoff n) s t x);
        [apply unit_roundoff_nonneg | by vm_compute
        | apply sum_error_nonneg, unit_roundoff_nonneg
        | exact Ht | exact Hx | exact Hrel |].
      apply round_binary64_within; [by apply Qcplus_nonneg_nonneg|].
      apply on_grid_plus; [done | by apply is_binary64_on_grid].
Qed.

(** Python's [sum] on floats none of which is negative: the relative error
    of the result. *)
Lemma binary64_sum_within xs :
  Forall (λ v, 0 ≤ v ∧ is_binary64 v) xs →
  within_rel (sum_error unit_roundoff (length xs)) (binary64_sum xs) (sum xs).
Proof.
  intros Hxs. unfold binary64_sum.
  rewrite <-(Qcplus_0_l (sum xs)).
  apply (binary64_sum_from xs 0 0 0%nat); [done|done| |done|].
  - exists 0%Z. by rewrite Z2Qc_inj_0, Qcmult_0_l.
  - split; by vm_compute.
Qed.

Lemma sum_error_bound u n :
  0 ≤ u → Qc_of_Z (Z.of_nat n) * (u + u) ≤ 1 →
  sum_error u n ≤ Qc_of_Z (Z.of_nat n) * (u + u).
Proof.
  intros Hu. induction n as [|n IH]; intros Hn.
  - cbn [sum_error]. change (Z.of_nat 0) with 0%Z.
    by rewrite Z2Qc_inj_0, Qcmult_0_l.
  - rewrite Nat2Z.inj_succ, <-Z.add_1_r, Z2Qc_inj_add, Z2Qc_inj_1 in Hn |- *.
    set (m := Qc_of_Z (Z.of_nat n)) in *.
    assert (0 ≤ m) as Hm.
    { unfold m. rewrite <-Z2Qc_inj_0. apply (proj1 (Z2Qc_inj_le _ _)). lia. }
    assert (m * (u + u) ≤ 1) as Hn'.
    { etrans; [|exact Hn]. apply Qcle_of_0_minus.
      replace ((m + 1) * (u + u) - m * (u + u)) with (u + u) by ring.
      by apply Qcplus_nonneg_nonneg. }
    specialize (IH Hn'). cbn [sum_error].
    apply Qcle_0_minus in IH, Hn. apply Qcle_of_0_minus.
    replace ((m + 1) * (u + u) - (sum_error u n + u + sum_error u n * u))
      with ((1 + u) * (m * (u + u) - sum_error u n)
            + u * (1 - (m + 1) * (u + u)) + u * (u + u)) by ring.
    assert (0 ≤ 1 + u) by (apply Qcplus_nonneg_nonneg; [by vm_compute | done]).
    nonneg.
Qed.

(** [a / b] on floats, for [a] not negative and [b] positive. *)
Lemma binary64_div_close a b :
  0 ≤ a → 0 < b →
  close_to unit_roundoff (pow2 (-1075)) (binary64_div a b) (a / b).
Proof.
  intros Ha Hb. apply round_binary64_close. unfold Qcdiv.
  apply Qcmult_nonneg_nonneg; [done|]. by apply Qclt_le_weak, Qcinv_pos.
Qed.

(** *** Normalising a normalised map *)

(** A rounded sum of values that add up to one within [δ]. *)
Lemma total_near_one S t δ ε :
  0 ≤ δ → 0 ≤ ε → (δ + ε) + (δ + ε) + (δ + ε) + (δ + ε) ≤ 1 →
  1 - δ ≤ S → S ≤ 1 + δ → within_rel ε t S →
  1 - ((δ + ε) + (δ + ε)) ≤ t ∧ t ≤ 1 + ((δ + ε) + (δ + ε)).
Proof.
  intros Hδ Hε H4%Qcle_0_minus HS1%Qcle_0_minus HS2%Qcle_0_minus
    [Ht1%Qcle_0_minus Ht2%Qcle_0_minus].
  assert (0 ≤ 1 - ε) as H1ε.
  { replace (1 - ε)
      with ((1 - ((δ + ε) + (δ + ε) + (δ + ε) + (δ + ε)))
            + ((δ + ε) + (δ + ε) + (δ + ε) + δ)) by ring.
    nonneg. }
  assert (0 ≤ 1 + ε) as H1ε' by nonneg.
  split; apply Qcle_of_0_minus.
  - replace (t - (1 - ((δ + ε) + (δ + ε))))
      with ((t - S * (1 - ε)) + (1 - ε) * (S - (1 - δ))
            + (δ + ε + δ * ε)) by ring.
    nonneg.
  - replace (1 + ((δ + ε) + (δ + ε)) - t)
      with ((S * (1 + ε) - t) + (1 + ε) * (1 + δ - S)
            + (δ * (1 - ε) + ε)) by ring.
    nonneg.
Qed.

(** A rounded quotient by a total near one. *)
Lemma quotient_close v t q Δ u η :
  0 ≤ v → 0 ≤ Δ → (Δ + Δ) + (Δ + Δ) ≤ 1 → 0 ≤ u → u ≤ 1 →
  1 - (Δ + Δ) ≤ t → t ≤ 1 + (Δ + Δ) →
  close_to u η q (v / t) →
  close_to (((Δ + Δ) + (Δ + Δ)) + (u + u)) η q v.
Proof.
  intros Hv HΔ H4 Hu Hu1 Ht1 Ht2 [Hq1%Qcle_0_minus Hq2%Qcle_0_minus].
  destruct (inv_near_one t (Δ + Δ)) as (Ht & Hi1%Qcle_0_minus & Hi2%Qcle_0_minus);
    [by nonneg | done..|].
  apply Qcle_0_minus in H4, Hu1.
  unfold Qcdiv in Hq1, Hq2. unfold close_to.
  split; apply Qcle_of_0_minus.
  - replace (q - (v * (1 - (((Δ + Δ) + (Δ + Δ)) + (u + u))) - η))
      with ((q - (v * / t * (1 - u) - η))
            + v * ((1 - u) * (/ t - (1 - ((Δ + Δ) + (Δ + Δ))))
                   + (u + ((Δ + Δ) + (Δ + Δ)) * u))) by ring.
    nonneg.
  - replace (v * (1 + (((Δ + Δ) + (Δ + Δ)) + (u + u))) + η - q)
      with ((v * / t * (1 + u) + η - q)
            + v * ((1 + u) * (1 + ((Δ + Δ) + (Δ + Δ)) - / t)
                   + u * (1 - ((Δ + Δ) + (Δ + Δ))))) by ring.
    nonneg.
Qed.

Lemma get_scores_with fsum fdiv raw file :
  fsum (Dict.values raw) ≠ 0 →
  Dict.get (scores_with fsum fdiv raw) file =
  (λ v, fdiv v (fsum (Dict.values raw))) <$> Dict.get raw file.
Proof.
  intros Hnz. unfold scores_with. rewrite decide_False by done.
  apply get_fmap_values.
Qed.

Lemma keys_scores_with fsum fdiv raw :
  fsum (Dict.values raw) ≠ 0 →
  Dict.keys (scores_with fsum fdiv raw) = Dict.keys raw.
Proof.
  intros Hnz. unfold scores_with. rewrite decide_False by done.
  apply keys_fmap_values.
Qed.

(** Errors below the margin keep a value within the tolerance. *)
Lemma close_within_tolerance v q δ ε u η :
  0 ≤ v → v ≤ 1 + δ → 0 ≤ δ → 0 ≤ ε → 0 ≤ u →
  δ ≤ margin → ε ≤ margin → u ≤ unit_roundoff → η ≤ margin →
  close_to ((((δ + ε) + (δ + ε)) + ((δ + ε) + (δ + ε))) + (u + u)) η q v →
  v - tolerance ≤ q ∧ q ≤ v + tolerance.
Proof.
  intros Hv Hv1 Hδ Hε Hu Hδm Hεm Hum Hηm [Hlo Hhi].
  set (τ := (((δ + ε) + (δ + ε)) + ((δ + ε) + (δ + ε))) + (u + u)) in *.
  set (τ0 := (((margin + margin) + (margin + margin))
              + ((margin + margin) + (margin + margin)))
             + (unit_roundoff + unit_roundoff)).
  assert (0 ≤ τ) as Hτ by (unfold τ; nonneg).
  assert (τ ≤ τ0) as Hτ0 by (unfold τ, τ0; repeat apply Qcplus_le_compat; done).
  assert (v * τ + η ≤ tolerance) as Hbound.
  { trans ((1 + margin) * τ0 + margin); [|by vm_compute].
    apply Qcplus_le_compat; [|done].
    trans ((1 + margin) * τ).
    - apply Qcmult_le_mono_nonneg_r; [done|].
      trans (1 + δ); [done|]. by apply Qcplus_le_mono_l.
    - apply Qcmult_le_mono_nonneg_l; [by vm_compute | done]. }
  apply Qcle_0_minus in Hlo, Hhi, Hbound.
  split; apply Qcle_of_0_minus.
  - replace (q - (v - tolerance))
      with ((q - (v * (1 - τ) - η)) + (tolerance - (v * τ + η))) by ring.
    nonneg.
  - replace (v + tolerance - q)
      with ((v * (1 + τ) + η - q) + (tolerance - (v * τ + η))) by ring.
    nonneg.
Qed.



(** With the operations of binary64 nothing is assumed of the
    arithmetic: a map of at most 45000 floats, none negative, that add up
    to one within a hundredth of [1e-9] comes back within [1e-9]. *)
Lemma binary64_normalised_again x δ :
  Dict.wf x →
  Forall (λ v, 0 ≤ v ∧ is_binary64 v) (Dict.values x) →
  (Z.of_nat (length (Dict.values x)) ≤ 45000)%Z →
  0 ≤ δ → δ ≤ margin →
  1 - δ ≤ sum (Dict.values x) → sum (Dict.values x) ≤ 1 + δ →
  ∃ y,
    call (calculate_bug_scores_with binary64_sum binary64_div) x = inr y ∧
    Dict.keys y = Dict.keys x ∧
    ∀ file v, Dict.get x file = Some v →
      ∃ v', Dict.get y file = Some v' ∧
            v - tolerance ≤ v' ∧ v' ≤ v + tolerance.
Proof.
  intros Hwf Hfl Hlen Hδ Hδm HS1 HS2.
  pose proof unit_roundoff_nonneg as Hu.
  set (ε := sum_error unit_roundoff (length (Dict.values x))).
  assert (Forall (λ v, 0 ≤ v) (Dict.values x)) as Hnonneg.
  { eapply Forall_impl; [exact Hfl|]. by intros v [? _]. }
  assert (0 ≤ ε) as Hε by by apply sum_error_nonneg.
  assert (Qc_of_Z (Z.of_nat (length (Dict.values x)))
          * (unit_roundoff + unit_roundoff) ≤ margin) as Hn.
  { trans (Qc_of_Z 45000 * (unit_roundoff + unit_roundoff));
      [|by vm_compute].
    apply Qcmult_le_mono_nonneg_r; [by vm_compute|].
    by apply (proj1 (Z2Qc_inj_le _ _)). }
  assert (ε ≤ margin) as Hεm.
  { etrans; [|exact Hn]. apply sum_error_bound; [done|].
    etrans; [exact Hn | by vm_compute]. }
  assert ((δ + ε) + (δ + ε) + (δ + ε) + (δ + ε) ≤ 1) as H4.
  { trans ((margin + margin) + (margin + margin) + (margin + margin)
           + (margin + margin)); [|by vm_compute].
    repeat apply Qcplus_le_compat; done. }
  assert (within_rel ε (binary64_sum (Dict.values x)) (sum (Dict.values x)))
    as Hsum by by apply binary64_sum_within.
  destruct (total_near_one _ _ _ _ Hδ Hε H4 HS1 HS2 Hsum) as [Ht1 Ht2].
  assert ((δ + ε + (δ + ε)) + (δ + ε + (δ + ε)) ≤ 1) as H4'.
  { by replace ((δ + ε + (δ + ε)) + (δ + ε + (δ + ε)))
      with ((δ + ε) + (δ + ε) + (δ + ε) + (δ + ε)) by ring. }
  destruct (inv_near_one (binary64_sum (Dict.values x)) ((δ + ε) + (δ + ε)))
    as (Ht & _ & _); [by nonneg | done..|].
  assert (binary64_sum (Dict.values x) ≠ 0) as Hnz
    by by apply not_eq_sym, Qclt_not_eq.
  exists (scores_with binary64_sum binary64_div x). split_and!.
  - by apply call_calculate_bug_scores_with.
  - by apply keys_scores_with.
  - intros file v Hget.
    exists (binary64_div v (binary64_sum (Dict.values x))).
    assert (v ∈ Dict.values x) as Hin.
    { apply list_elem_of_fmap. exists (file, v).
      split; [done | by apply get_Some_elem_of]. }
    assert (0 ≤ v) as Hv by by eapply Forall_forall in Hnonneg.
    split; [by rewrite get_scores_with, Hget|].
    apply (close_within_tolerance v _ δ ε unit_roundoff (pow2 (-1075)));
      [done | | done | done | done | done | done | done | by vm_compute |].
    + trans (sum (Dict.values x)); [by apply elem_le_sum | done].
    + apply (quotient_close v (binary64_sum (Dict.values x)) _ (δ + ε));
        [done | by nonneg | done | done | by vm_compute | done | done |].
      by apply binary64_div_close.
Qed.

(** With binary64 the result is not the map itself: the total of the six
    floats nearest to one sixth is [1 - 2^-53], and dividing by it moves
    every score up by one unit in the last place. *)
Example binary64_changes_the_last_bit :
  let v := round_binary64 (Q2Qc (1 # 6)) in
  let x := (λ file, (file, v))
             <$> ["a.py"; "b.py"; "c.py"; "d.py"; "e.py"; "f.py"] in
  Qcanon.this v = (6004799503160661 # 36028797018963968)%Q ∧
  Qcanon.this (binary64_sum (Dict.values x)) =
    (9007199254740991 # 9007199254740992)%Q ∧
  Qcanon.this (binary64_div v (binary64_sum (Dict.values x))) =
    (3002399751580331 # 18014398509481984)%Q.
Proof. by vm_compute. Qed.

(** On floats a common factor need not cancel: the counts [1] and [3] have
    the scores [0.25] and [0.75], and with the values [0.1] and [3 * 0.1] the
    second score is [0.75 + 2^-53]. *)
Example binary64_factor_does_not_cancel :
  let a := round_binary64 (Q2Qc (1 # 10)) in
  let b := round_binary64 (Qc_of_Z 3 * a) in
  let scores := scores_with binary64_sum binary64_div in
  Qcanon.this <$> Dict.values (scores [("a.py", 1); ("b.py", Qc_of_Z 3)]) =
    [(1 # 4)%Q; (3 # 4)%Q] ∧
  Qcanon.this <$> Dict.values (scores [("a.py", a); ("b.py", b)]) =
    [(1 # 4)%Q; (6755399441055745 # 9007199254740992)%Q].
Proof. by vm_compute. Qed.
End rounding.
